(** * DM-Backend: the fragmentation directory and the path resolver

    A shallow embedding of [internal/database]: the connection helpers
    ([buildPath], [CreateLevelDBDatabase], [CleanPath]) and the shard
    directory ([FragmentationAdd], [FragmentationGet], [FragmentationExists],
    [FragmentationUpdate], [FragmentationRemove]).

    Go strings are byte sequences: they are [string] at the interface and
    [list ascii] where the code indexes them.  An [int64] is a [Z] with its
    wrap-around written out.  The file system, the LevelDB stores and the
    logger are an explicit [World] threaded through an [IO] state monad. *)

From Stdlib Require Import ZArith Lia List Bool Ascii String.
From stdpp Require Import base gmap strings list fin_maps.

Import ListNotations.
Local Open Scope string_scope.
Local Open Scope list_scope.
Local Open Scope Z_scope.

(** ** Bytes *)

Definition bytes := list ascii.

Definition slash : ascii := "/"%char.
Definition dot : ascii := "."%char.

Definition is_slash (c : ascii) : bool := Ascii.eqb c slash.
Definition is_dot (c : ascii) : bool := Ascii.eqb c dot.

Definition byte_val (c : ascii) : Z := Z.of_N (N_of_ascii c).
Definition byte_of (z : Z) : ascii := ascii_of_N (Z.to_N z).

(** ** package strings *)

Module strings.

(** [asciiSpace]: the bytes '\t', '\n', '\v', '\f', '\r', ' '. *)
Definition asciiSpace (c : ascii) : bool :=
  let v := byte_val c in ((9 <=? v) && (v <=? 13)) || (v =? 32).

(** The UTF-8 encodings of the runes above U+007F for which
    [unicode.IsSpace] holds: U+0085, U+00A0, U+1680, U+2000..U+200A,
    U+2028, U+2029, U+202F, U+205F, U+3000. *)
Definition unicode_space_encodings : list bytes :=
  map (map byte_of)
    ([ [194; 133]; [194; 160]; [225; 154; 128] ]
     ++ map (fun k => [226; 128; 128 + k]) [0; 1; 2; 3; 4; 5; 6; 7; 8; 9; 10]
     ++ [ [226; 128; 168]; [226; 128; 169]; [226; 128; 175];
          [226; 129; 159]; [227; 128; 128] ]).

Fixpoint has_prefix (pre s : bytes) : bool :=
  match pre, s with
  | [], _ => true
  | _ :: _, [] => false
  | a :: pre', b :: s' => Ascii.eqb a b && has_prefix pre' s'
  end.

(** Width in bytes of the white-space rune that starts [s] (0 if none). *)
Definition leading_space_width (s : bytes) : nat :=
  match s with
  | [] => 0%nat
  | c :: _ =>
      if asciiSpace c then 1%nat
      else match List.find (fun e => has_prefix e s) unicode_space_encodings with
           | Some e => List.length e
           | None => 0%nat
           end
  end.

Fixpoint trim_left_space (fuel : nat) (s : bytes) : bytes :=
  match fuel with
  | O => s
  | S fuel' =>
      match leading_space_width s with
      | O => s
      | S k => trim_left_space fuel' (skipn (S k) s)
      end
  end.

(** Same, from the end: [r] is the string reversed, matched against the
    reversed encodings. *)
Definition trailing_space_width (r : bytes) : nat :=
  match r with
  | [] => 0%nat
  | c :: _ =>
      if asciiSpace c then 1%nat
      else match List.find (fun e => has_prefix (rev e) r) unicode_space_encodings with
           | Some e => List.length e
           | None => 0%nat
           end
  end.

Fixpoint trim_right_space_rev (fuel : nat) (r : bytes) : bytes :=
  match fuel with
  | O => r
  | S fuel' =>
      match trailing_space_width r with
      | O => r
      | S k => trim_right_space_rev fuel' (skipn (S k) r)
      end
  end.

(** [strings.TrimSpace]: all leading and trailing white space removed, as
    defined by Unicode. *)
Definition TrimSpace_bytes (s : bytes) : bytes :=
  let l := trim_left_space (List.length s) s in
  rev (trim_right_space_rev (List.length l) (rev l)).

Definition TrimSpace (s : string) : string :=
  string_of_list_ascii (TrimSpace_bytes (list_ascii_of_string s)).

(** [trimLeftByte]: [for len(s) > 0 && s[0] == c { s = s[1:] }]. *)
Fixpoint trimLeftByte (s : bytes) (c : ascii) : bytes :=
  match s with
  | [] => []
  | x :: s' => if Ascii.eqb x c then trimLeftByte s' c else s
  end.

(** [trimRightByte]: [for len(s) > 0 && s[len(s)-1] == c { s = s[:len(s)-1] }]. *)
Definition trimRightByte (s : bytes) (c : ascii) : bytes :=
  rev (trimLeftByte (rev s) c).

(** [strings.Trim(s, cutset)] for a cutset of one ASCII byte [c], the only
    form the package under study uses:
    [trimLeftByte(trimRightByte(s, c), c)], and [s] itself when it is empty. *)
Definition Trim_byte (s : bytes) (c : ascii) : bytes :=
  match s with
  | [] => s
  | _ => trimLeftByte (trimRightByte s c) c
  end.

Definition Trim (s : string) (c : ascii) : string :=
  string_of_list_ascii (Trim_byte (list_ascii_of_string s) c).

End strings.

(** ** package path *)

Module path.

(** [r+k == n || path[r+k] == '/'], on the input from position [r+k] on. *)
Definition end_or_slash (p : bytes) : bool :=
  match p with
  | [] => true
  | c :: _ => is_slash c
  end.

(** The inner loop of the [..] case, after [out.w--]:
    [for out.w > dotdot && out.index(out.w) != '/' { out.w-- }]. *)
Fixpoint backtrack (buf : bytes) (dotdot w : nat) : nat :=
  match w with
  | O => O
  | S w' =>
      if (dotdot <? w)%nat && negb (is_slash (nth w buf slash))
      then backtrack buf dotdot w'
      else w
  end.

(** The copy loop of the default case:
    [for ; r < n && path[r] != '/'; r++ { out.append(path[r]) }];
    returns the buffer and the input left. *)
Fixpoint copy_element (p out : bytes) : bytes * bytes :=
  match p with
  | [] => (out, [])
  | c :: p' => if is_slash c then (out, p) else copy_element p' (out ++ [c])
  end.

(** The main loop of [Clean], [for r < n { switch ... }]: [p] is the input
    from [r] on, [out] the bytes written so far ([out.w] is its length).
    Every iteration consumes input, so [fuel = len(path)] is enough. *)
Fixpoint clean_loop (fuel : nat) (rooted : bool) (p out : bytes) (dotdot : nat)
  : bytes :=
  match fuel with
  | O => out
  | S fuel' =>
      match p with
      | [] => out
      | c :: p1 =>
          if is_slash c then
            (* empty path element *)
            clean_loop fuel' rooted p1 out dotdot
          else if is_dot c && end_or_slash p1 then
            (* . element *)
            clean_loop fuel' rooted p1 out dotdot
          else if is_dot c && is_dot (hd slash p1) && end_or_slash (tl p1) then
            (* .. element: remove to last / *)
            let p2 := tl p1 in
            if (dotdot <? List.length out)%nat then
              (* can backtrack *)
              let w := backtrack out dotdot (List.length out - 1) in
              clean_loop fuel' rooted p2 (firstn w out) dotdot
            else if negb rooted then
              (* cannot backtrack, but not rooted, so append .. element *)
              let out1 := if (0 <? List.length out)%nat then out ++ [slash] else out in
              let out2 := out1 ++ [dot; dot] in
              clean_loop fuel' rooted p2 out2 (List.length out2)
            else
              clean_loop fuel' rooted p2 out dotdot
          else
            (* real path element: add slash if needed, copy element *)
            let out1 :=
              if (rooted && negb (List.length out =? 1)%nat)
                 || (negb rooted && negb (List.length out =? 0)%nat)
              then out ++ [slash] else out in
            let '(out2, rest) := copy_element p out1 in
            clean_loop fuel' rooted rest out2 dotdot
      end
  end.

(** [path.Clean] on bytes. *)
Definition Clean_bytes (p : bytes) : bytes :=
  match p with
  | [] => [dot]
  | c :: p1 =>
      let rooted := is_slash c in
      let out :=
        if rooted then clean_loop (List.length p) rooted p1 [slash] 1
        else clean_loop (List.length p) rooted p [] 0 in
      (* Turn empty string into "." *)
      match out with
      | [] => [dot]
      | _ => out
      end
  end.

Definition Clean (p : string) : string :=
  string_of_list_ascii (Clean_bytes (list_ascii_of_string p)).

(** The loop of [path.Join] that fills [buf]:
    [if len(buf) > 0 || e != "" { if len(buf) > 0 { buf = append(buf, '/') };
     buf = append(buf, e...) }]. *)
Fixpoint join_loop (elem : list string) (buf : bytes) : bytes :=
  match elem with
  | [] => buf
  | e :: elem' =>
      let eb := list_ascii_of_string e in
      match buf, eb with
      | [], [] => join_loop elem' buf
      | [], _ => join_loop elem' eb
      | _, _ => join_loop elem' (buf ++ [slash] ++ eb)
      end
  end.

(** [path.Join(elem...)]. *)
Definition Join (elem : list string) : string :=
  if forallb (fun e => String.eqb e "") elem then ""
  else string_of_list_ascii (Clean_bytes (join_loop elem [])).

End path.

(** ** Integers: [fmt.Sprintf("%d", v)] and [strconv.ParseInt(s, 10, 64)] *)

Definition minInt64 : Z := - 2 ^ 63.
Definition maxInt64 : Z := 2 ^ 63 - 1.
Definition maxUint64 : Z := 2 ^ 64 - 1.

Definition in_int64 (v : Z) : Prop := minInt64 <= v <= maxInt64.

(** Conversions between [int64] and [uint64] keep the bit pattern. *)
Definition to_uint64 (z : Z) : Z := z mod 2 ^ 64.
Definition to_int64 (z : Z) : Z := (z + 2 ^ 63) mod 2 ^ 64 - 2 ^ 63.

Module fmt.

(** The base-10 loop of the method [fmtInteger] of [fmt], which fills the buffer right
    to left: [for u >= 10 { i--; next := u / 10;
    buf[i] = byte('0' + u - next*10); u = next }; i--; buf[i] = digits[u]].
    The buffer has room for 68 bytes. *)
Fixpoint digits_loop (room : nat) (u : Z) (buf : string) : string :=
  match room with
  | O => buf
  | S room' =>
      if 10 <=? u then
        let next := u / 10 in
        digits_loop room' next (String (byte_of (48 + u - next * 10)) buf)
      else String (byte_of (48 + u)) buf
  end.

(** [fmtInteger(u, 10, isSigned = true, 'd', ldigits)] with no flags,
    width or precision: what the verb [%d] prints for an [int64]. *)
Definition fmtInteger (v : Z) : string :=
  let u := to_uint64 v in
  let negative := to_int64 u <? 0 in
  let u := if negative then to_uint64 (- u) else u in
  let buf := digits_loop 68 u "" in
  if negative then String "-" buf else buf.

(** [fmt.Sprintf("%d", v)]. *)
Definition Sprintf_d (v : Z) : string := fmtInteger v.

End fmt.

Module strconv.

Inductive NumError := ErrSyntax | ErrRange.

(** [lower(c)]: [c | ('x' - 'X')]. *)
Definition lower (c : Z) : Z := Z.lor c 32.

(** [cutoff = maxUint64/10 + 1], the smallest number such that
    [cutoff*base > maxUint64]. *)
Definition cutoff10 : Z := maxUint64 / 10 + 1.

(** The digit loop of [ParseUint(s, 10, 64)]. *)
Fixpoint ParseUint_loop (s : string) (n : Z) : Z * option NumError :=
  match s with
  | EmptyString => (n, None)
  | String ch s' =>
      let c := byte_val ch in
      let digit :=
        if (48 <=? c) && (c <=? 57) then Some (c - 48)
        else if (97 <=? lower c) && (lower c <=? 122) then Some (lower c - 97 + 10)
        else None in
      match digit with
      | None => (0, Some ErrSyntax)
      | Some d =>
          if 10 <=? d then (0, Some ErrSyntax)
          else if cutoff10 <=? n then
            (* n*base overflows *)
            (maxUint64, Some ErrRange)
          else
            let n := to_uint64 (n * 10) in
            let n1 := to_uint64 (n + d) in
            if (n1 <? n) || (maxUint64 <? n1) then
              (* n+d overflows *)
              (maxUint64, Some ErrRange)
            else ParseUint_loop s' n1
      end
  end.

Definition ParseUint (s : string) : Z * option NumError :=
  match s with
  | EmptyString => (0, Some ErrSyntax)
  | _ => ParseUint_loop s 0
  end.

(** [strconv.ParseInt(s, 10, 64)]. *)
Definition ParseInt (s : string) : Z * option NumError :=
  match s with
  | EmptyString => (0, Some ErrSyntax)
  | String c0 s1 =>
      (* Pick off leading sign. *)
      let '(neg, s') :=
        if Ascii.eqb c0 "+" then (false, s1)
        else if Ascii.eqb c0 "-" then (true, s1)
        else (false, s) in
      (* Convert unsigned and check range. *)
      match ParseUint s' with
      | (_, Some ErrSyntax) => (0, Some ErrSyntax)
      | (un, _) =>
          let cutoff := 2 ^ 63 in
          if negb neg && (cutoff <=? un) then (cutoff - 1, Some ErrRange)
          else if neg && (cutoff <? un) then (- cutoff, Some ErrRange)
          else
            let n := to_int64 un in
            (if neg then to_int64 (- n) else n, None)
      end
  end.

End strconv.

(** ** Errors *)

(** The package-level error variables of [internal/database]. *)
Inductive sentinel :=
| ErrInvalidPath | ErrDatabaseOpen | ErrDirectoryCreate
| ErrShardNotFound | ErrFragmentationWrite | ErrFragmentationRead
| ErrShardConversion | ErrEmptyKey.

(** A Go [error] value: one of the package's variables, an error made by a
    library ([os], goleveldb, [strconv]), or the result of [fmt.Errorf] with
    its [%w] operand, its [%s] operand and its [%v] operand. *)
#[warnings="-register-all"]
Inductive error :=
| Sentinel (s : sentinel)
| OsError
| LevelDBNotFound
| LevelDBError
| NumError (e : strconv.NumError)
| Errorf (wrapped : error) (operand : option string) (cause : option error).

Definition sentinel_eqb (a b : sentinel) : bool :=
  match a, b with
  | ErrInvalidPath, ErrInvalidPath | ErrDatabaseOpen, ErrDatabaseOpen
  | ErrDirectoryCreate, ErrDirectoryCreate | ErrShardNotFound, ErrShardNotFound
  | ErrFragmentationWrite, ErrFragmentationWrite
  | ErrFragmentationRead, ErrFragmentationRead
  | ErrShardConversion, ErrShardConversion | ErrEmptyKey, ErrEmptyKey => true
  | _, _ => false
  end.

(** [errors.Is(err, target)] for a target that is one of the package's
    variables: the chain of [%w] operands is searched. *)
Fixpoint errors_Is (err : error) (target : sentinel) : bool :=
  match err with
  | Sentinel s => sentinel_eqb s target
  | Errorf wrapped _ _ => errors_Is wrapped target
  | _ => false
  end.

(** ** The world: file system, LevelDB stores, logger *)

Inductive IOEvent :=
| EvStat (dir : string)
| EvMkdirAll (dir : string)
| EvOpenFile (dir : string)
| EvGet (dir key : string)
| EvPut (dir key value : string)
| EvDelete (dir key : string)
| EvClose (dir : string).

(** The lines written with [log.Printf], by the call that writes them. *)
Inductive LogLine :=
| LogCreatedDir (dir : string)
| LogOpening (dir : string)
| LogOpenError (e : error)
| LogSkipEmptyKey
| LogAddError (key : string) (e : error)
| LogAdded (key : string) (shard : Z)
| LogKeyNotFound (key : string) (e : error)
| LogRemoveError (key : string) (e : error)
| LogRemoved (key : string)
| LogGetError (key : string) (e : error)
| LogConversionError (e : error)
| LogUpdated (key : string) (shard : Z).

(** What the environment makes fail: creating a directory, opening a store,
    and the reads, writes and deletes of an open store (by store and key). *)
Record Faults := {
  mkdir_fails : string -> bool;
  open_fails : string -> bool;
  get_fails : string -> string -> bool;
  put_fails : string -> string -> bool;
  delete_fails : string -> string -> bool }.

Record World := {
  dirs : gset string;                        (* the directories that exist *)
  stores : gmap string (gmap string string); (* the LevelDB stores, by path *)
  faults : Faults;
  trace : list IOEvent;                      (* file and store calls, oldest first *)
  logs : list LogLine }.                     (* the log, oldest first *)

(** The contents of the store at [dir]; a store never written to is empty. *)
Definition store_at (w : World) (dir : string) : gmap string string :=
  default ∅ (stores w !! dir).

Definition IO (A : Type) : Type := World -> A * World.

Definition ret {A} (a : A) : IO A := fun w => (a, w).
Definition bind {A B} (m : IO A) (k : A -> IO B) : IO B :=
  fun w => let '(a, w') := m w in k a w'.

Notation "x <- m ;; k" := (bind m (fun x => k))
  (at level 100, m at next level, right associativity).
Notation "m ;;; k" := (bind m (fun _ => k))
  (at level 100, right associativity).

(** The updates of the world. *)
Definition record_event (e : IOEvent) (w : World) : World :=
  {| dirs := dirs w; stores := stores w; faults := faults w;
     trace := trace w ++ [e]; logs := logs w |}.

Definition record_log (l : LogLine) (w : World) : World :=
  {| dirs := dirs w; stores := stores w; faults := faults w;
     trace := trace w; logs := logs w ++ [l] |}.

Definition with_dirs (ds : list string) (w : World) : World :=
  {| dirs := list_to_set ds ∪ dirs w; stores := stores w;
     faults := faults w; trace := trace w; logs := logs w |}.

Definition with_store (dir : string) (m : gmap string string) (w : World) : World :=
  {| dirs := dirs w; stores := <[dir := m]> (stores w);
     faults := faults w; trace := trace w; logs := logs w |}.

Definition emit (e : IOEvent) : IO unit := fun w => (tt, record_event e w).
Definition log_Printf (l : LogLine) : IO unit := fun w => (tt, record_log l w).
Definition get_world : IO World := fun w => (w, w).
Definition add_dirs (ds : list string) : IO unit := fun w => (tt, with_dirs ds w).
Definition set_store (dir : string) (m : gmap string string) : IO unit :=
  fun w => (tt, with_store dir m w).

(** [dir] and the directories above it, which [os.MkdirAll] creates too. *)
Fixpoint parents_loop (pre rest : bytes) : list string :=
  match rest with
  | [] => [string_of_list_ascii pre]
  | c :: rest' =>
      (if is_slash c && negb (Nat.eqb (List.length pre) 0)
       then [string_of_list_ascii pre] else [])
      ++ parents_loop (pre ++ [c]) rest'
  end.

Definition with_parents (dir : string) : list string :=
  parents_loop [] (list_ascii_of_string dir).

Module os.

(** [_, err := os.Stat(dir); os.IsNotExist(err)]. *)
Definition Stat_IsNotExist (dir : string) : IO bool :=
  emit (EvStat dir) ;;;
  w <- get_world ;;
  ret (negb (bool_decide (dir ∈ dirs w))).

(** [os.MkdirAll(dir, 0755)]. *)
Definition MkdirAll (dir : string) : IO (option error) :=
  emit (EvMkdirAll dir) ;;;
  w <- get_world ;;
  if mkdir_fails (faults w) dir then ret (Some OsError)
  else add_dirs (with_parents dir) ;;; ret None.

End os.

Module leveldb.

(** An open store, a [leveldb.DB].  A call that returns a store and an
    error returns the store or the error. *)
Record DB := { db_path : string }.

(** [leveldb.OpenFile(dir, nil)]: opens the store at [dir], creating it
    (and its directory) if missing. *)
Definition OpenFile (dir : string) : IO (DB + error) :=
  emit (EvOpenFile dir) ;;;
  w <- get_world ;;
  if open_fails (faults w) dir then ret (inr LevelDBError)
  else add_dirs (with_parents dir) ;;; ret (inl {| db_path := dir |}).

(** [db.Put(key, value, nil)]. *)
Definition Put (db : DB) (key value : string) : IO (option error) :=
  emit (EvPut (db_path db) key value) ;;;
  w <- get_world ;;
  if put_fails (faults w) (db_path db) key then ret (Some LevelDBError)
  else set_store (db_path db) (<[key := value]> (store_at w (db_path db))) ;;;
       ret None.

(** [db.Get(key, nil)]: [ErrNotFound] when the key is absent. *)
Definition Get (db : DB) (key : string) : IO (string * option error) :=
  emit (EvGet (db_path db) key) ;;;
  w <- get_world ;;
  if get_fails (faults w) (db_path db) key then ret ("", Some LevelDBError)
  else match store_at w (db_path db) !! key with
       | Some v => ret (v, None)
       | None => ret ("", Some LevelDBNotFound)
       end.

(** [db.Delete(key, nil)]: deleting an absent key is no error. *)
Definition Delete (db : DB) (key : string) : IO (option error) :=
  emit (EvDelete (db_path db) key) ;;;
  w <- get_world ;;
  if delete_fails (faults w) (db_path db) key then ret (Some LevelDBError)
  else set_store (db_path db) (delete key (store_at w (db_path db))) ;;;
       ret None.

(** [db.Close()]. *)
Definition Close (db : DB) : IO unit := emit (EvClose (db_path db)).

End leveldb.

(** [defer ldb.Close()]: the store is closed on every way out of [body]. *)
Definition defer_Close {A} (ldb : leveldb.DB) (body : IO A) : IO A :=
  r <- body ;; leveldb.Close ldb ;;; ret r.

(** ** package database: connections and paths *)

(** [buildPath(params...)]. *)
Definition buildPath (params : list string) : IO (string * option error) :=
  if (List.length params <? 2)%nat then ret ("", Some (Sentinel ErrInvalidPath))
  else
    (* Clean and join the path components *)
    let cleanedParams := map strings.TrimSpace params in
    (* Build the base directory (first two components) *)
    let dir := path.Join [nth 0 cleanedParams ""; nth 1 cleanedParams ""] in
    (* Create the directory if it doesn't exist *)
    missing <- os.Stat_IsNotExist dir ;;
    failed <- (if missing then
                 err <- os.MkdirAll dir ;;
                 match err with
                 | Some e => ret (Some (Errorf e (Some dir) None))
                 | None => log_Printf (LogCreatedDir dir) ;;; ret None
                 end
               else ret None) ;;
    match failed with
    | Some e => ret ("", Some e)
    | None =>
        (* Append additional path components (e.g., database filename) *)
        let dir := if (2 <? List.length params)%nat
                   then path.Join [dir; nth 2 cleanedParams ""] else dir in
        ret (dir, None)
    end.

(** [CreateLevelDBDatabase(params...)]. *)
Definition CreateLevelDBDatabase (params : list string) : IO (leveldb.DB + error) :=
  if (List.length params <? 2)%nat then ret (inr (Sentinel ErrInvalidPath))
  else
    res <- buildPath params ;;
    let '(dir, err) := res in
    match err with
    | Some e => ret (inr (Errorf (Sentinel ErrDirectoryCreate) None (Some e)))
    | None =>
        log_Printf (LogOpening dir) ;;;
        r <- leveldb.OpenFile dir ;;
        match r with
        | inr e => ret (inr (Errorf (Sentinel ErrDatabaseOpen) None (Some e)))
        | inl db => ret (inl db)
        end
    end.

(** [CleanPath(p)]. *)
Definition CleanPath (p : string) : string :=
  path.Clean (strings.Trim p "/").

(** ** package database: the fragmentation directory *)

Definition GlobalSchemaPath : string := "GlobalSchema".
Definition DefaultBaseDir : string := "Database/".

(** The store every operation opens:
    [CreateLevelDBDatabase(DefaultBaseDir, GlobalSchemaPath, "/")]. *)
Definition open_schema : IO (leveldb.DB + error) :=
  CreateLevelDBDatabase [DefaultBaseDir; GlobalSchemaPath; "/"].

(** The body of the loop [for _, key := range keys] of [FragmentationAdd]. *)
Fixpoint add_keys (ldb : leveldb.DB) (shard : Z) (shardBytes : string)
    (keys : list string) : IO (option error) :=
  match keys with
  | [] => ret None
  | key :: keys' =>
      if String.eqb key "" then
        log_Printf LogSkipEmptyKey ;;;
        add_keys ldb shard shardBytes keys'
      else
        err <- leveldb.Put ldb key shardBytes ;;
        match err with
        | Some e =>
            log_Printf (LogAddError key e) ;;;
            ret (Some (Errorf (Sentinel ErrFragmentationWrite) (Some key) (Some e)))
        | None =>
            log_Printf (LogAdded key shard) ;;;
            add_keys ldb shard shardBytes keys'
        end
  end.

(** [FragmentationAdd(shard, keys...)]. *)
Definition FragmentationAdd (shard : Z) (keys : list string) : IO (option error) :=
  if (List.length keys =? 0)%nat then ret (Some (Sentinel ErrEmptyKey))
  else
    r <- open_schema ;;
    match r with
    | inl ldb =>
        defer_Close ldb
          (let shardBytes := fmt.Sprintf_d shard in
           add_keys ldb shard shardBytes keys)
    | inr e =>
        log_Printf (LogOpenError e) ;;;
        ret (Some (Errorf (Sentinel ErrDatabaseOpen) None (Some e)))
    end.

(** [FragmentationRemove(key)]. *)
Definition FragmentationRemove (key : string) : IO (option error) :=
  if String.eqb key "" then ret (Some (Sentinel ErrEmptyKey))
  else
    r <- open_schema ;;
    match r with
    | inl ldb =>
        defer_Close ldb
          ((* Check if key exists before attempting to delete *)
           res <- leveldb.Get ldb key ;;
           let '(_, err) := res in
           match err with
           | Some e =>
               log_Printf (LogKeyNotFound key e) ;;;
               ret (Some (Errorf (Sentinel ErrShardNotFound) None (Some e)))
           | None =>
               err <- leveldb.Delete ldb key ;;
               match err with
               | Some e =>
                   log_Printf (LogRemoveError key e) ;;;
                   ret (Some (Errorf (Sentinel ErrFragmentationWrite) None (Some e)))
               | None =>
                   log_Printf (LogRemoved key) ;;;
                   ret None
               end
           end)
    | inr e =>
        log_Printf (LogOpenError e) ;;;
        ret (Some (Errorf (Sentinel ErrDatabaseOpen) None (Some e)))
    end.

(** [FragmentationGet(rowID)]. *)
Definition FragmentationGet (rowID : string) : IO (Z * option error) :=
  if String.eqb rowID "" then ret (-1, Some (Sentinel ErrEmptyKey))
  else
    r <- open_schema ;;
    match r with
    | inl ldb =>
        defer_Close ldb
          (res <- leveldb.Get ldb rowID ;;
           let '(shard, err) := res in
           match err with
           | Some e =>
               log_Printf (LogGetError rowID e) ;;;
               ret (-1, Some (Errorf (Sentinel ErrShardNotFound) None (Some e)))
           | None =>
               match strconv.ParseInt shard with
               | (_, Some ne) =>
                   log_Printf (LogConversionError (NumError ne)) ;;;
                   ret (-1, Some (Errorf (Sentinel ErrShardConversion) None
                                     (Some (NumError ne))))
               | (n, None) => ret (n, None)
               end
           end)
    | inr e =>
        log_Printf (LogOpenError e) ;;;
        ret (-1, Some (Errorf (Sentinel ErrDatabaseOpen) None (Some e)))
    end.

(** [FragmentationExists(key)]. *)
Definition FragmentationExists (key : string) : IO (bool * option error) :=
  if String.eqb key "" then ret (false, Some (Sentinel ErrEmptyKey))
  else
    r <- open_schema ;;
    match r with
    | inl ldb =>
        defer_Close ldb
          (res <- leveldb.Get ldb key ;;
           let '(_, err) := res in
           match err with
           | Some _ => ret (false, None) (* Key doesn't exist *)
           | None => ret (true, None)
           end)
    | inr e => ret (false, Some (Errorf (Sentinel ErrDatabaseOpen) None (Some e)))
    end.

(** [FragmentationUpdate(key, newShard)]. *)
Definition FragmentationUpdate (key : string) (newShard : Z) : IO (option error) :=
  if String.eqb key "" then ret (Some (Sentinel ErrEmptyKey))
  else
    res <- FragmentationExists key ;;
    let '(exists_, err) := res in
    match err with
    | Some e => ret (Some e)
    | None =>
        if negb exists_ then
          ret (Some (Errorf (Sentinel ErrShardNotFound) (Some key) None))
        else
          r <- open_schema ;;
          match r with
          | inl ldb =>
              defer_Close ldb
                (err <- leveldb.Put ldb key (fmt.Sprintf_d newShard) ;;
                 match err with
                 | Some e =>
                     ret (Some (Errorf (Sentinel ErrFragmentationWrite) None (Some e)))
                 | None =>
                     log_Printf (LogUpdated key newShard) ;;;
                     ret None
                 end)
          | inr e => ret (Some (Errorf (Sentinel ErrDatabaseOpen) None (Some e)))
          end
    end.

(** ** The store of the directory *)

Definition schema_dir : string := "Database/GlobalSchema".
Definition schema_db : leveldb.DB := {| leveldb.db_path := schema_dir |}.

(** The key -> shard index: the contents of the GlobalSchema store. *)
Definition schema (w : World) : gmap string string := store_at w schema_dir.

(** What [open_schema] does once the directory is known to exist. *)
Definition open_after_stat (w : World) : (leveldb.DB + error) * World :=
  let w1 := record_event (EvOpenFile schema_dir) (record_log (LogOpening schema_dir) w) in
  if open_fails (faults w) schema_dir
  then (inr (Errorf (Sentinel ErrDatabaseOpen) None (Some LevelDBError)), w1)
  else (inl schema_db, with_dirs (with_parents schema_dir) w1).

(** * Definitions used to state and prove the properties *)

(** ** Path elements: the shape of a cleaned path *)

(** The main loop with the fuel [Clean] gives it. *)
Definition run (p out : bytes) (dotdot : nat) : bytes :=
  path.clean_loop (List.length p) false p out dotdot.

Definition slash_free (c : bytes) : Prop := Forall (fun x => is_slash x = false) c.

(** A path element other than [.] and [..]: the default case. *)
Definition is_name (c : bytes) : Prop :=
  slash_free c /\ c <> [] /\ c <> [dot] /\ c <> [dot; dot].

Fixpoint join_slash (cs : list bytes) : bytes :=
  match cs with
  | [] => []
  | c :: cs' => match cs' with [] => c | _ => c ++ slash :: join_slash cs' end
  end.

Definition dotdot_elem : bytes := [dot; dot].

(** The state of the loop on an unrooted path: [k] leading [..] elements,
    then names. *)
Definition elems (st : nat * list bytes) : list bytes :=
  repeat dotdot_elem (fst st) ++ snd st.

Definition render (st : nat * list bytes) : bytes := join_slash (elems st).

Definition dotdot_of (st : nat * list bytes) : nat :=
  List.length (join_slash (repeat dotdot_elem (fst st))).

Definition wf (st : nat * list bytes) : Prop := Forall is_name (snd st).

Definition is_elem (c : bytes) : Prop := slash_free c /\ c <> [].

Definition step_abs (c : bytes) (st : nat * list bytes) : nat * list bytes :=
  if decide (c = []) then st
  else if decide (c = [dot]) then st
  else if decide (c = dotdot_elem) then
    match snd st with
    | [] => (S (fst st), [])
    | _ => (fst st, removelast (snd st))
    end
  else (fst st, snd st ++ [c]).

(** A path that does not start with a slash (the empty path too). *)
Definition unrooted (t : bytes) : Prop := is_slash (hd dot t) = false.

(** The results of [Clean] on unrooted paths. *)
Definition cleaned (r : bytes) : Prop :=
  r = [dot] \/ exists st, wf st /\ render st <> [] /\ r = render st.

(** ** The directory as a state *)

(** The store of the directory can be opened: [open_schema] returns it. *)
Definition store_opens (w : World) : bool :=
  match fst (open_schema w) with
  | inl _ => true
  | inr _ => false
  end.

(** Nothing fails at the store of the directory. *)
Definition healthy (w : World) : Prop :=
  mkdir_fails (faults w) schema_dir = false /\
  open_fails (faults w) schema_dir = false /\
  (forall k, get_fails (faults w) schema_dir k = false) /\
  (forall k, put_fails (faults w) schema_dir k = false) /\
  (forall k, delete_fails (faults w) schema_dir k = false).

(** What a call leaves alone: the faults, and the directories that exist. *)
Definition env_kept (w w' : World) : Prop :=
  faults w' = faults w /\ dirs w ⊆ dirs w'.

(** The writes of [FragmentationAdd] that went through. *)
Definition put_keys (value : string) (keys : list string) (m : gmap string string)
  : gmap string string :=
  fold_left (fun m key => if String.eqb key "" then m else <[key := value]> m) keys m.

(** Every assignment has a non-empty key and the decimal text of an
    [int64] as its value. *)
Definition dir_inv (m : gmap string string) : Prop :=
  forall k v, m !! k = Some v ->
    k <> "" /\ exists z, in_int64 z /\ v = fmt.Sprintf_d z.

(** The operations of the directory, as values. *)
Inductive DirOp :=
| OpAdd (shard : Z) (keys : list string)
| OpUpdate (key : string) (newShard : Z)
| OpRemove (key : string)
| OpGet (key : string)
| OpExists (key : string).

(** The shard of a call is an [int64]. *)
Definition op_typed (op : DirOp) : Prop :=
  match op with
  | OpAdd shard _ => in_int64 shard
  | OpUpdate _ newShard => in_int64 newShard
  | _ => True
  end.

Definition run_op (op : DirOp) (w : World) : World :=
  match op with
  | OpAdd shard keys => snd (FragmentationAdd shard keys w)
  | OpUpdate key newShard => snd (FragmentationUpdate key newShard w)
  | OpRemove key => snd (FragmentationRemove key w)
  | OpGet key => snd (FragmentationGet key w)
  | OpExists key => snd (FragmentationExists key w)
  end.

(** The worlds the directory can be in: it starts empty, its operations
    run, and in between the environment changes anything but the contents
    of its store. *)
Inductive reachable : World -> Prop :=
| reach_fresh w : schema w = ∅ -> reachable w
| reach_op w op : reachable w -> op_typed op -> reachable (run_op op w)
| reach_env w w' : reachable w -> schema w' = schema w -> reachable w'.

(** A world with nothing on disk and no faults. *)
Definition no_faults : Faults :=
  {| mkdir_fails := fun _ => false; open_fails := fun _ => false;
     get_fails := fun _ _ => false; put_fails := fun _ _ => false;
     delete_fails := fun _ _ => false |}.

Definition fresh_world : World :=
  {| dirs := ∅; stores := ∅; faults := no_faults; trace := []; logs := [] |}.

(** ** What each operation returns and leaves in the index

    Each function below gives the result of an operation and the index it
    leaves, from the index it finds, the faults, and what [open_schema]
    returns. *)

Definition open_error (e : error) : error :=
  Errorf (Sentinel ErrDatabaseOpen) None (Some e).

Definition get_model (w : World) (rowID : string) : Z * option error :=
  if String.eqb rowID "" then (-1, Some (Sentinel ErrEmptyKey))
  else match fst (open_schema w) with
       | inr e => (-1, Some (open_error e))
       | inl _ =>
           if get_fails (faults w) schema_dir rowID
           then (-1, Some (Errorf (Sentinel ErrShardNotFound) None (Some LevelDBError)))
           else match schema w !! rowID with
                | None =>
                    (-1, Some (Errorf (Sentinel ErrShardNotFound) None
                                 (Some LevelDBNotFound)))
                | Some v =>
                    match strconv.ParseInt v with
                    | (_, Some ne) =>
                        (-1, Some (Errorf (Sentinel ErrShardConversion) None
                                     (Some (NumError ne))))
                    | (n, None) => (n, None)
                    end
                end
       end.

Definition exists_model (w : World) (key : string) : bool * option error :=
  if String.eqb key "" then (false, Some (Sentinel ErrEmptyKey))
  else match fst (open_schema w) with
       | inr e => (false, Some (open_error e))
       | inl _ =>
           if get_fails (faults w) schema_dir key then (false, None)
           else match schema w !! key with
                | None => (false, None)
                | Some _ => (true, None)
                end
       end.

Definition remove_model (w : World) (key : string)
  : option error * gmap string string :=
  if String.eqb key "" then (Some (Sentinel ErrEmptyKey), schema w)
  else match fst (open_schema w) with
       | inr e => (Some (open_error e), schema w)
       | inl _ =>
           if get_fails (faults w) schema_dir key
           then (Some (Errorf (Sentinel ErrShardNotFound) None (Some LevelDBError)),
                 schema w)
           else match schema w !! key with
                | None =>
                    (Some (Errorf (Sentinel ErrShardNotFound) None
                             (Some LevelDBNotFound)), schema w)
                | Some _ =>
                    if delete_fails (faults w) schema_dir key
                    then (Some (Errorf (Sentinel ErrFragmentationWrite) None
                                  (Some LevelDBError)), schema w)
                    else (None, delete key (schema w))
                end
       end.

Definition update_model (w : World) (key : string) (newShard : Z)
  : option error * gmap string string :=
  match exists_model w key with
  | (_, Some e) => (Some e, schema w)
  | (false, None) =>
      (Some (Errorf (Sentinel ErrShardNotFound) (Some key) None), schema w)
  | (true, None) =>
      if put_fails (faults w) schema_dir key
      then (Some (Errorf (Sentinel ErrFragmentationWrite) None (Some LevelDBError)),
            schema w)
      else (None, <[key := fmt.Sprintf_d newShard]> (schema w))
  end.

Fixpoint add_keys_model (f : Faults) (shardBytes : string) (keys : list string)
    (m : gmap string string) : option error * gmap string string :=
  match keys with
  | [] => (None, m)
  | key :: keys' =>
      if String.eqb key "" then add_keys_model f shardBytes keys' m
      else if put_fails f schema_dir key
      then (Some (Errorf (Sentinel ErrFragmentationWrite) (Some key)
                    (Some LevelDBError)), m)
      else add_keys_model f shardBytes keys' (<[key := shardBytes]> m)
  end.

Definition add_model (w : World) (shard : Z) (keys : list string)
  : option error * gmap string string :=
  match keys with
  | [] => (Some (Sentinel ErrEmptyKey), schema w)
  | _ =>
      match fst (open_schema w) with
      | inr e => (Some (open_error e), schema w)
      | inl _ => add_keys_model (faults w) (fmt.Sprintf_d shard) keys (schema w)
      end
  end.

(** A world in which the store of the directory cannot be opened. *)
Definition locked_world : World :=
  {| dirs := ∅; stores := ∅;
     faults := {| mkdir_fails := fun _ => false; open_fails := fun _ => true;
                  get_fails := fun _ _ => false; put_fails := fun _ _ => false;
                  delete_fails := fun _ _ => false |};
     trace := []; logs := [] |}.

(** A world whose index was written to from outside the directory. *)
Definition tampered_world : World :=
  {| dirs := ∅; stores := {[ schema_dir := {[ "k" := "seven" ]} ]};
     faults := no_faults; trace := []; logs := [] |}.


(** ** Path resolution as the specification words it

    [Resolve]: the first two components, trimmed, form the directory; "a
    third (and beyond, collapsed into one) component is appended as a final
    path segment".  The components from the third on are joined into one and
    appended. *)
Definition Resolve_spec_path (components : list string) : string :=
  let cleaned := map strings.TrimSpace components in
  let dir := path.Join [nth 0 cleaned ""; nth 1 cleaned ""] in
  match skipn 2 cleaned with
  | [] => dir
  | tail => path.Join [dir; path.Join tail]
  end.


(** ** More about the directory *)



(** A world in which writing the key ["bad"] fails. *)
Definition bad_key_world : World :=
  {| dirs := ∅; stores := ∅;
     faults := {| mkdir_fails := fun _ => false; open_fails := fun _ => false;
                  get_fails := fun _ _ => false;
                  put_fails := fun _ key => String.eqb key "bad";
                  delete_fails := fun _ _ => false |};
     trace := []; logs := [] |}.




(** ** More about paths *)

(** No two slashes in a row. *)
Fixpoint no_double_slash (r : bytes) : bool :=
  match r with
  | a :: (b :: _) as r' => negb (is_slash a && is_slash b) && no_double_slash r'
  | _ => true
  end.

(** * Properties

    ** The model on the inputs of the package's tests *)

Example clean1 : path.Clean "a//b/./c/.." = "a/b". Proof. reflexivity. Qed.
Example clean2 : path.Clean "/../a/b/../../.." = "/". Proof. reflexivity. Qed.
Example clean3 : path.Clean "../../a/../../b" = "../../../b". Proof. reflexivity. Qed.
Example clean4 : path.Clean "" = ".". Proof. reflexivity. Qed.
Example clean5 : path.Clean "abc/def/../../.." = "..". Proof. reflexivity. Qed.
Example clean6 : path.Clean "/abc/..a/...//.b/" = "/abc/..a/.../.b". Proof. reflexivity. Qed.
Example join1 : path.Join ["Database/"; "GlobalSchema"] = "Database/GlobalSchema". Proof. reflexivity. Qed.
Example join2 : path.Join ["Database/GlobalSchema"; "/"] = "Database/GlobalSchema". Proof. reflexivity. Qed.
Example join3 : path.Join [""; ""] = "". Proof. reflexivity. Qed.
Example join4 : path.Join [""; "a"; ""; "b"] = "a/b". Proof. reflexivity. Qed.
Example trim1 : strings.TrimSpace "  a b
 " = "a b". Proof. reflexivity. Qed.
Example sprintf1 : fmt.Sprintf_d (-9223372036854775808) = "-9223372036854775808".
Proof. reflexivity. Qed.
Example sprintf2 : fmt.Sprintf_d 0 = "0". Proof. reflexivity. Qed.
Example sprintf3 : fmt.Sprintf_d 9223372036854775807 = "9223372036854775807".
Proof. reflexivity. Qed.
Example parse1 : strconv.ParseInt "-9223372036854775808" = (-9223372036854775808, None).
Proof. reflexivity. Qed.
Example parse2 : strconv.ParseInt "9223372036854775808" = (9223372036854775807, Some strconv.ErrRange).
Proof. reflexivity. Qed.
Example parse3 : strconv.ParseInt "+42" = (42, None). Proof. reflexivity. Qed.
Example parse4 : strconv.ParseInt "4a" = (0, Some strconv.ErrSyntax). Proof. reflexivity. Qed.
Example parse5 : strconv.ParseInt "-" = (0, Some strconv.ErrSyntax). Proof. reflexivity. Qed.
Example parse6 : strconv.ParseInt "99999999999999999999" = (9223372036854775807, Some strconv.ErrRange).
Proof. reflexivity. Qed.

(** [TestCleanPath]. *)
Example TestCleanPath_1 : CleanPath "/path/to/file/" = "path/to/file".
Proof. reflexivity. Qed.
Example TestCleanPath_2 : CleanPath "path/to/file" = "path/to/file".
Proof. reflexivity. Qed.
Example TestCleanPath_3 : CleanPath "/path/" = "path".
Proof. reflexivity. Qed.
Example TestCleanPath_4 : CleanPath "//path//to//" = "path/to".
Proof. reflexivity. Qed.

(** [TestBuildPath]. *)
Example TestBuildPath_two : fst (buildPath ["testdb"; "shard1"] fresh_world)
                            = ("testdb/shard1", None).
Proof. vm_compute. reflexivity. Qed.
Example TestBuildPath_three : fst (buildPath ["testdb"; "shard1"; "data.db"] fresh_world)
                              = ("testdb/shard1/data.db", None).
Proof. vm_compute. reflexivity. Qed.
Example TestBuildPath_one : fst (buildPath ["testdb"] fresh_world)
                            = ("", Some (Sentinel ErrInvalidPath)).
Proof. reflexivity. Qed.

(** [TestFragmentationAdd], [TestFragmentationGet], [TestFragmentationUpdate]. *)
Example TestFragmentationAdd_multiple :
  let w := snd (FragmentationAdd 2 ["user_002"; "user_003"; "user_004"] fresh_world) in
  map (fun key => fst (FragmentationGet key w)) ["user_002"; "user_003"; "user_004"]
  = [(2, None); (2, None); (2, None)].
Proof. vm_compute. reflexivity. Qed.
Example TestFragmentationAdd_empty :
  fst (FragmentationAdd 3 [] fresh_world) = Some (Sentinel ErrEmptyKey).
Proof. reflexivity. Qed.
Example TestFragmentationGet_missing :
  fst (FragmentationGet "non_existing_key"
         (snd (FragmentationAdd 42 ["test_get_key"] fresh_world)))
  = (-1, Some (Errorf (Sentinel ErrShardNotFound) None (Some LevelDBNotFound))).
Proof. vm_compute. reflexivity. Qed.
Example TestFragmentationUpdate_existing :
  let w1 := snd (FragmentationAdd 1 ["test_update_key"] fresh_world) in
  let '(err, w2) := FragmentationUpdate "test_update_key" 99 w1 in
  (err, fst (FragmentationGet "test_update_key" w2)) = (None, (99, None)).
Proof. vm_compute. reflexivity. Qed.

(** ** Decimal text round trip *)

Lemma byte_val_of (z : Z) : 0 <= z < 256 -> byte_val (byte_of z) = z.
Proof.
  intros H. unfold byte_val, byte_of.
  rewrite N_ascii_embedding by lia. lia.
Qed.

Ltac word_arith :=
  unfold strconv.cutoff10 in *;
  unfold to_uint64, to_int64, maxUint64, minInt64, maxInt64 in *;
  change (2 ^ 64) with 18446744073709551616 in *;
  change (2 ^ 63) with 9223372036854775808 in *;
  Z.to_euclidean_division_equations; lia.

Lemma ParseUint_loop_digit (d n : Z) (s : string) :
  0 <= d < 10 -> 0 <= n -> n * 10 + d <= maxUint64 ->
  strconv.ParseUint_loop (String (byte_of (48 + d)) s) n
  = strconv.ParseUint_loop s (n * 10 + d).
Proof.
  intros Hd Hn Hmax. cbn [strconv.ParseUint_loop].
  rewrite byte_val_of by lia.
  replace ((48 <=? 48 + d) && (48 + d <=? 57)) with true
    by (symmetry; apply andb_true_iff; split; apply Z.leb_le; lia).
  replace (48 + d - 48) with d by lia.
  replace (10 <=? d) with false by (symmetry; apply Z.leb_gt; lia).
  replace (strconv.cutoff10 <=? n) with false
    by (symmetry; apply Z.leb_gt; word_arith).
  replace (to_uint64 (n * 10)) with (n * 10) by word_arith.
  replace (to_uint64 (n * 10 + d)) with (n * 10 + d) by word_arith.
  replace ((n * 10 + d <? n * 10) || (maxUint64 <? n * 10 + d)) with false; [reflexivity|].
  symmetry. apply orb_false_iff. split; apply Z.ltb_ge; lia.
Qed.

Lemma ParseUint_digits_loop (room : nat) :
  forall (u : Z) (buf : string),
    0 <= u < 10 ^ Z.of_nat room -> u <= maxUint64 ->
    strconv.ParseUint_loop (fmt.digits_loop room u buf) 0
    = strconv.ParseUint_loop buf u.
Proof.
  induction room as [|room IH]; intros u buf Hu Hmax.
  - cbn [fmt.digits_loop]. replace u with 0 by (simpl in Hu; lia). reflexivity.
  - cbn [fmt.digits_loop].
    rewrite Nat2Z.inj_succ, Z.pow_succ_r in Hu by lia.
    destruct (Z.leb_spec 10 u) as [Hge|Hlt].
    + replace (48 + u - u / 10 * 10) with (48 + (u - u / 10 * 10)) by lia.
      rewrite IH by (try split; Z.to_euclidean_division_equations; nia).
      rewrite ParseUint_loop_digit; try (Z.to_euclidean_division_equations; lia).
      f_equal. lia.
    + rewrite ParseUint_loop_digit by lia. f_equal.
Qed.

(** The text of an unsigned number starts with a digit. *)
Lemma digits_loop_head (room : nat) :
  forall (u : Z) (buf : string), 0 <= u ->
    exists d s, 0 <= d < 10 /\
      fmt.digits_loop (S room) u buf = String (byte_of (48 + d)) s.
Proof.
  induction room as [|room IH]; intros u buf Hu.
  - cbn [fmt.digits_loop]. destruct (Z.leb_spec 10 u).
    + exists (u - u / 10 * 10), buf. split; [Z.to_euclidean_division_equations; lia|].
      f_equal. f_equal. lia.
    + exists u, buf. split; [lia|reflexivity].
  - change (fmt.digits_loop (S (S room)) u buf) with
      (if 10 <=? u then fmt.digits_loop (S room) (u / 10)
                          (String (byte_of (48 + u - u / 10 * 10)) buf)
       else String (byte_of (48 + u)) buf).
    destruct (Z.leb_spec 10 u).
    + apply IH. Z.to_euclidean_division_equations; lia.
    + exists u, buf. split; [lia|reflexivity].
Qed.

Lemma digit_not_sign (d : Z) :
  0 <= d < 10 ->
  Ascii.eqb (byte_of (48 + d)) "+" = false /\ Ascii.eqb (byte_of (48 + d)) "-" = false.
Proof.
  intros H.
  assert (d = 0 \/ d = 1 \/ d = 2 \/ d = 3 \/ d = 4 \/ d = 5 \/ d = 6 \/ d = 7
          \/ d = 8 \/ d = 9) as Hd by lia.
  repeat (destruct Hd as [->|Hd]; [split; reflexivity|]). subst d. split; reflexivity.
Qed.

Lemma ParseUint_digits (u : Z) :
  0 <= u <= maxUint64 ->
  strconv.ParseUint (fmt.digits_loop 68 u "") = (u, None).
Proof.
  intros Hu.
  destruct (digits_loop_head 67 u "" ltac:(lia)) as (d & s & Hd & Heq).
  unfold strconv.ParseUint. rewrite Heq. rewrite <- Heq.
  rewrite ParseUint_digits_loop; [reflexivity| |lia].
  split; [lia|]. eapply Z.le_lt_trans; [apply Hu|]. reflexivity.
Qed.

(** [ParseInt] reads back what [%d] prints. *)
Lemma ParseInt_Sprintf_d (v : Z) :
  in_int64 v -> strconv.ParseInt (fmt.Sprintf_d v) = (v, None).
Proof.
  intros Hv. unfold in_int64 in Hv. unfold fmt.Sprintf_d, fmt.fmtInteger.
  destruct (Z.ltb_spec (to_int64 (to_uint64 v)) 0) as [Hneg|Hpos].
  - assert (v < 0) as Hv0 by word_arith.
    assert (to_uint64 (- to_uint64 v) = - v) as -> by word_arith.
    cbn [strconv.ParseInt]. change (Ascii.eqb "-" "+") with false.
    change (Ascii.eqb "-" "-") with true. cbv iota.
    rewrite ParseUint_digits by word_arith.
    replace (negb true && (2 ^ 63 <=? - v)) with false by reflexivity.
    replace (true && (2 ^ 63 <? - v)) with false
      by (symmetry; apply Z.ltb_ge; word_arith).
    f_equal. word_arith.
  - assert (0 <= v) as Hv0 by word_arith.
    assert (to_uint64 v = v) as -> by word_arith.
    destruct (digits_loop_head 67 v "" Hv0) as (d & s & Hd & Heq).
    destruct (digit_not_sign d Hd) as [Hplus Hminus].
    unfold strconv.ParseInt. rewrite Heq, Hplus, Hminus. rewrite <- Heq.
    rewrite ParseUint_digits by word_arith.
    replace (negb false && (2 ^ 63 <=? v)) with false
      by (symmetry; apply Z.leb_gt; word_arith).
    cbn [andb]. f_equal. word_arith.
Qed.

(** ** [path.Clean] on paths that do not start with a slash *)

Section CleanUnrooted.

Local Open Scope nat_scope.
Import path.



Lemma copy_element_length p : forall out,
  List.length (snd (copy_element p out)) <= List.length p.
Proof.
  induction p as [|c p IH]; intros out; cbn [copy_element].
  - reflexivity.
  - destruct (is_slash c); cbn [snd List.length]; [lia|].
    specialize (IH (out ++ [c])). lia.
Qed.

Lemma copy_element_app c : forall rest out,
  slash_free c -> end_or_slash rest = true ->
  copy_element (c ++ rest) out = (out ++ c, rest).
Proof.
  induction c as [|x c IH]; intros rest out Hc Hrest.
  - rewrite app_nil_r. destruct rest as [|y rest]; [reflexivity|].
    cbn in Hrest |- *. rewrite Hrest. reflexivity.
  - inversion Hc as [|? ? Hx Hc']; subst. cbn [app copy_element]. rewrite Hx.
    rewrite IH by assumption. rewrite <- app_assoc. reflexivity.
Qed.

(** More fuel than the length of the input changes nothing. *)
Lemma clean_loop_fuel rooted (n : nat) :
  forall p out dotdot f1 f2,
    List.length p <= n -> List.length p <= f1 -> List.length p <= f2 ->
    clean_loop f1 rooted p out dotdot = clean_loop f2 rooted p out dotdot.
Proof.
  induction n as [|n IH]; intros p out dotdot f1 f2 Hn H1 H2.
  - destruct p; [|cbn in Hn; lia]. destruct f1, f2; reflexivity.
  - destruct p as [|c p1]; [destruct f1, f2; reflexivity|].
    cbn [List.length] in *.
    destruct f1 as [|f1]; [lia|]. destruct f2 as [|f2]; [lia|].
    cbn [clean_loop].
    assert (List.length (tl p1) <= List.length p1) by (destruct p1; cbn; lia).
    pose proof (copy_element_length (c :: p1)) as Hcopy.
    destruct (is_slash c) eqn:Hc; [apply IH; lia|].
    destruct (is_dot c && end_or_slash p1); [apply IH; lia|].
    destruct (is_dot c && is_dot (hd slash p1) && end_or_slash (tl p1)).
    + destruct (dotdot <? List.length out); [apply IH; lia|].
      destruct (negb rooted); apply IH; lia.
    + match goal with |- context [copy_element (c :: p1) ?o] =>
        specialize (Hcopy o); cbn [copy_element] in Hcopy |- *;
        rewrite Hc in Hcopy |- *; specialize (copy_element_length p1 (o ++ [c]));
        destruct (copy_element p1 (o ++ [c])) as [out2 rest] end.
      cbn [snd]. intros Hlen. apply IH; lia.
Qed.

Lemma clean_loop_step fuel rooted c p1 out dotdot :
  clean_loop (S fuel) rooted (c :: p1) out dotdot =
  if is_slash c then clean_loop fuel rooted p1 out dotdot
  else if is_dot c && end_or_slash p1 then clean_loop fuel rooted p1 out dotdot
  else if is_dot c && is_dot (hd slash p1) && end_or_slash (tl p1) then
    if dotdot <? List.length out then
      clean_loop fuel rooted (tl p1)
        (firstn (backtrack out dotdot (List.length out - 1)) out) dotdot
    else if negb rooted then
      let out2 := (if 0 <? List.length out then out ++ [slash] else out) ++ [dot; dot] in
      clean_loop fuel rooted (tl p1) out2 (List.length out2)
    else clean_loop fuel rooted (tl p1) out dotdot
  else
    let out1 :=
      if (rooted && negb (List.length out =? 1))
         || (negb rooted && negb (List.length out =? 0))
      then out ++ [slash] else out in
    let '(out2, rest) := copy_element (c :: p1) out1 in
    clean_loop fuel rooted rest out2 dotdot.
Proof. reflexivity. Qed.

Lemma run_fuel p out dotdot f :
  List.length p <= f -> clean_loop f false p out dotdot = run p out dotdot.
Proof. intros H. unfold run. apply (clean_loop_fuel false f); lia. Qed.

Lemma run_nil out dotdot : run [] out dotdot = out.
Proof. reflexivity. Qed.

Lemma run_slash p out dotdot : run (slash :: p) out dotdot = run p out dotdot.
Proof.
  unfold run at 1. cbn [List.length]. rewrite clean_loop_step.
  change (is_slash slash) with true. cbv iota. apply run_fuel. lia.
Qed.

Lemma run_dot rest out dotdot :
  end_or_slash rest = true -> run (dot :: rest) out dotdot = run rest out dotdot.
Proof.
  intros H. unfold run at 1. cbn [List.length]. rewrite clean_loop_step.
  change (is_slash dot) with false. change (is_dot dot) with true. rewrite H.
  cbn [andb]. cbv iota. apply run_fuel. lia.
Qed.

Lemma run_dotdot rest out dotdot :
  end_or_slash rest = true ->
  run (dot :: dot :: rest) out dotdot =
  if dotdot <? List.length out
  then run rest (firstn (backtrack out dotdot (List.length out - 1)) out) dotdot
  else let out2 := (if 0 <? List.length out then out ++ [slash] else out) ++ [dot; dot] in
       run rest out2 (List.length out2).
Proof.
  intros H. unfold run at 1. cbn [List.length]. rewrite clean_loop_step.
  cbn [hd tl end_or_slash].
  change (is_slash dot) with false. change (is_dot dot) with true. rewrite H.
  cbn [andb negb]. cbv iota.
  destruct (dotdot <? List.length out); apply run_fuel; lia.
Qed.


Lemma is_dot_eq x : is_dot x = true -> x = dot.
Proof. unfold is_dot. apply Ascii.eqb_eq. Qed.

Lemma run_name c rest out dotdot :
  is_name c -> end_or_slash rest = true ->
  run (c ++ rest) out dotdot =
  run rest ((if List.length out =? 0 then out else out ++ [slash]) ++ c) dotdot.
Proof.
  intros (Hfree & Hne & Hdot & Hdotdot) Hrest.
  destruct c as [|c0 c1]; [congruence|].
  unfold run at 1. cbn [app List.length]. rewrite clean_loop_step.
  inversion Hfree as [|? ? Hc0 Hfree1]; subst. rewrite Hc0.
  assert (is_dot c0 && end_or_slash (c1 ++ rest) = false) as ->.
  { destruct (is_dot c0) eqn:E; [|reflexivity]. apply is_dot_eq in E. subst c0.
    destruct c1 as [|x c1]; [congruence|]. inversion Hfree1; subst. assumption. }
  assert (is_dot c0 && is_dot (hd slash (c1 ++ rest)) && end_or_slash (tl (c1 ++ rest))
          = false) as ->.
  { destruct (is_dot c0) eqn:E; [|reflexivity]. apply is_dot_eq in E. subst c0.
    destruct c1 as [|x c1]; [congruence|]. cbn [app hd tl andb].
    destruct (is_dot x) eqn:E; [|reflexivity]. apply is_dot_eq in E. subst x.
    destruct c1 as [|y c1]; [congruence|]. inversion Hfree1 as [|? ? _ Hfree2]; subst.
    inversion Hfree2; subst. assumption. }
  cbn [andb negb orb]. cbv iota.
  change (c0 :: c1 ++ rest) with ((c0 :: c1) ++ rest).
  rewrite copy_element_app by assumption.
  rewrite run_fuel by (rewrite length_app; lia).
  destruct (List.length out =? 0); reflexivity.
Qed.


(** *** The buffer as a list of path elements *)






Lemma join_slash_snoc l c :
  join_slash (l ++ [c]) = match l with [] => c | _ => join_slash l ++ slash :: c end.
Proof.
  induction l as [|a l IH]; [reflexivity|].
  cbn [app join_slash]. rewrite IH.
  destruct l as [|b l]; [reflexivity|].
  cbn [app]. rewrite <- app_assoc. reflexivity.
Qed.

Lemma join_slash_nonempty l :
  Forall is_elem l -> l <> [] -> join_slash l <> [].
Proof.
  intros Hall Hne. destruct l as [|a l]; [congruence|].
  inversion Hall as [|? ? [_ Ha] _]; subst. cbn [join_slash].
  destruct l; [assumption|]. destruct a; [congruence|discriminate].
Qed.

Lemma join_slash_prefix_length l l' :
  List.length (join_slash l) <= List.length (join_slash (l ++ l')).
Proof.
  induction l' as [|x l' IH] using rev_ind; [rewrite app_nil_r; lia|].
  rewrite app_assoc, join_slash_snoc.
  destruct (l ++ l') as [|a m] eqn:E.
  - apply app_eq_nil in E as [-> _]. cbn. lia.
  - rewrite length_app. lia.
Qed.

Lemma elem_dotdot : is_elem dotdot_elem.
Proof. split; [repeat constructor|discriminate]. Qed.

Lemma is_name_elem c : is_name c -> is_elem c.
Proof. intros (? & ? & _). split; assumption. Qed.

Lemma repeat_dotdot_elems k : Forall is_elem (repeat dotdot_elem k).
Proof.
  apply List.Forall_forall. intros x Hx. apply repeat_spec in Hx. subst.
  apply elem_dotdot.
Qed.

Lemma elems_are_elems st : wf st -> Forall is_elem (elems st).
Proof.
  intros H. unfold elems. apply Forall_app. split.
  - apply repeat_dotdot_elems.
  - eapply List.Forall_impl; [|exact H]. apply is_name_elem.
Qed.

Lemma nth_slash_free n i :
  slash_free n -> i < List.length n -> is_slash (nth i n slash) = false.
Proof.
  intros H Hi. revert i Hi. induction H as [|x n Hx _ IH]; intros i Hi.
  - cbn in Hi. lia.
  - destruct i; [assumption|]. cbn in Hi |- *. apply IH. lia.
Qed.

Lemma backtrack_name n j :
  slash_free n -> j < List.length n -> backtrack n 0 j = 0.
Proof.
  intros Hn. induction j as [|j IH]; intros Hj; [reflexivity|].
  cbn [backtrack]. rewrite nth_slash_free by assumption.
  cbn. apply IH. lia.
Qed.

Lemma backtrack_last pre n dotdot j :
  slash_free n -> dotdot <= List.length pre -> j <= List.length n ->
  backtrack (pre ++ slash :: n) dotdot (List.length pre + j) = List.length pre.
Proof.
  intros Hn Hdd. induction j as [|j IH]; intros Hj.
  - rewrite Nat.add_0_r. destruct (List.length pre) as [|w] eqn:E; [reflexivity|].
    cbn [backtrack]. rewrite <- E.
    rewrite app_nth2, Nat.sub_diag by lia. cbn [nth].
    change (is_slash slash) with true. rewrite andb_false_r. reflexivity.
  - rewrite Nat.add_succ_r. cbn [backtrack].
    rewrite app_nth2 by lia.
    replace (S (List.length pre + j) - List.length pre) with (S j) by lia.
    cbn [nth]. rewrite nth_slash_free by (assumption || lia).
    replace (dotdot <? S (List.length pre + j)) with true
      by (symmetry; apply Nat.ltb_lt; lia).
    cbn [andb negb]. apply IH. lia.
Qed.


Lemma Forall_removelast {A} (P : A -> Prop) (l : list A) :
  Forall P l -> Forall P (removelast l).
Proof.
  induction 1 as [|a l Ha Hl IH]; [constructor|].
  cbn [removelast]. destruct l; constructor; assumption.
Qed.

Lemma step_abs_wf c st : slash_free c -> wf st -> wf (step_abs c st).
Proof.
  intros Hc Hst. unfold step_abs, wf in *.
  repeat case_decide; try assumption.
  - destruct (snd st) eqn:E; cbn [snd]; [constructor|].
    rewrite <- E. apply Forall_removelast. rewrite <- E in Hst. assumption.
  - cbn [snd]. apply Forall_app. split; [assumption|].
    repeat constructor; assumption.
Qed.

Lemma length_render_ge st : dotdot_of st <= List.length (render st).
Proof. apply join_slash_prefix_length. Qed.

(** One path element of the input takes the loop from a state to the next. *)
Lemma run_step c rest st :
  wf st -> slash_free c -> end_or_slash rest = true ->
  run (c ++ rest) (render st) (dotdot_of st)
  = run rest (render (step_abs c st)) (dotdot_of (step_abs c st)).
Proof.
  intros Hwf Hc Hrest. unfold step_abs.
  destruct (decide (c = [])) as [->|Hne]; [reflexivity|].
  destruct (decide (c = [dot])) as [->|Hdot]; [apply run_dot; assumption|].
  destruct (decide (c = dotdot_elem)) as [->|Hdotdot].
  - cbn [app dotdot_elem]. rewrite run_dotdot by assumption.
    destruct st as [k names]. cbn [fst snd].
    destruct names as [|n0 names0].
    + (* nothing to remove: one more leading .. *)
      unfold render, dotdot_of, elems. cbn [fst snd]. rewrite !app_nil_r.
      rewrite Nat.ltb_irrefl.
      replace (repeat dotdot_elem (S k)) with (repeat dotdot_elem k ++ [dotdot_elem])
        by (symmetry; apply (repeat_cons k dotdot_elem)).
      rewrite !join_slash_snoc. destruct k as [|k]; [reflexivity|].
      cbn [repeat]. set (l := dotdot_elem :: repeat dotdot_elem k).
      assert (join_slash l <> []) as Hl.
      { apply join_slash_nonempty; [|discriminate].
        apply (repeat_dotdot_elems (S k)). }
      destruct (join_slash l) eqn:E; [congruence|].
      cbn [List.length Nat.ltb Nat.leb]. rewrite <- app_assoc. reflexivity.
    + (* the last name goes *)
      destruct (exists_last (l := n0 :: names0) ltac:(discriminate)) as (names' & n & E).
      rewrite E in *. clear E n0 names0. rewrite removelast_last.
      assert (is_name n /\ Forall is_name names') as [Hn Hnames'].
      { unfold wf in Hwf. cbn [snd] in Hwf. apply Forall_app in Hwf as [? Hn].
        inversion Hn; subst. split; assumption. }
      destruct Hn as (Hfree & Hnne & _).
      pose proof (length_render_ge (k, names')) as Hdd.
      unfold render, dotdot_of, elems in *. cbn [fst snd] in *.
      rewrite app_assoc, join_slash_snoc.
      destruct (repeat dotdot_elem k ++ names') as [|a l] eqn:El.
      * apply app_eq_nil in El as [Hk ->]. rewrite Hk. cbn [join_slash List.length].
        replace (0 <? List.length n) with true
          by (symmetry; apply Nat.ltb_lt; destruct n; [congruence|cbn; lia]).
        rewrite backtrack_name by (assumption || (destruct n; [congruence|cbn; lia])).
        reflexivity.
      * set (pre := join_slash (a :: l)) in *.
        rewrite length_app. cbn [List.length].
        replace (List.length (join_slash (repeat dotdot_elem k))
                 <? List.length pre + S (List.length n)) with true
          by (symmetry; apply Nat.ltb_lt; lia).
        replace (List.length pre + S (List.length n) - 1)
          with (List.length pre + List.length n) by lia.
        rewrite backtrack_last by (assumption || lia).
        rewrite firstn_app, Nat.sub_diag, firstn_all. cbn [firstn].
        rewrite app_nil_r. reflexivity.
  - (* a name is appended *)
    assert (is_name c) as Hname by (repeat split; assumption).
    rewrite run_name by assumption. f_equal.
    unfold render, elems. cbn [fst snd]. rewrite app_assoc, join_slash_snoc.
    pose proof (elems_are_elems st Hwf) as Hel. unfold elems in Hel.
    destruct (repeat dotdot_elem (fst st) ++ snd st) as [|a l] eqn:El; [reflexivity|].
    pose proof (join_slash_nonempty (a :: l) Hel ltac:(discriminate)) as Hpre.
    destruct (join_slash (a :: l)) eqn:E; [congruence|].
    cbn [List.length Nat.eqb]. rewrite <- app_assoc. reflexivity.
Qed.

Lemma split_elem p :
  exists c rest, p = c ++ rest /\ slash_free c /\ end_or_slash rest = true.
Proof.
  induction p as [|x p (c & rest & -> & Hc & Hrest)].
  - exists [], []. repeat split. constructor.
  - destruct (is_slash x) eqn:E.
    + exists [], (x :: c ++ rest). repeat split; [constructor|assumption].
    + exists (x :: c), rest. repeat split; [constructor|]; assumption.
Qed.

Lemma is_slash_eq x : is_slash x = true -> x = slash.
Proof. unfold is_slash. apply Ascii.eqb_eq. Qed.

(** The loop ends in a state of the same form. *)
Lemma run_result (n : nat) :
  forall p st, List.length p <= n -> wf st ->
    exists st', wf st' /\ run p (render st) (dotdot_of st) = render st'.
Proof.
  induction n as [|n IH]; intros p st Hlen Hwf.
  - destruct p; [|cbn in Hlen; lia]. exists st. split; [assumption|reflexivity].
  - destruct (split_elem p) as (c & rest & -> & Hc & Hrest).
    destruct c as [|c0 c].
    + cbn [app] in *. destruct rest as [|x rest].
      * exists st. split; [assumption|reflexivity].
      * cbn in Hrest. apply is_slash_eq in Hrest. subst x. rewrite run_slash.
        apply IH; [cbn in Hlen; lia|assumption].
    + rewrite run_step by assumption.
      apply IH; [|apply step_abs_wf; assumption].
      rewrite length_app in Hlen. cbn in Hlen. lia.
Qed.


(** *** Cleaning a cleaned path *)

Lemma step_abs_name c st : is_name c -> step_abs c st = (fst st, snd st ++ [c]).
Proof.
  intros (_ & H1 & H2 & H3). unfold step_abs, dotdot_elem.
  repeat case_decide; congruence.
Qed.

Lemma fold_dotdots j : forall k,
  fold_left (fun s c => step_abs c s) (repeat dotdot_elem j) (k, []) = (k + j, []).
Proof.
  induction j as [|j IH]; intros k; cbn [repeat fold_left].
  - f_equal. lia.
  - change (step_abs dotdot_elem (k, [])) with (S k, @nil bytes).
    rewrite IH. f_equal. lia.
Qed.

Lemma fold_names names : Forall is_name names -> forall k acc,
  fold_left (fun s c => step_abs c s) names (k, acc) = (k, acc ++ names).
Proof.
  induction 1 as [|c names Hc _ IH]; intros k acc; cbn [fold_left].
  - rewrite app_nil_r. reflexivity.
  - rewrite step_abs_name by assumption. cbn [fst snd].
    rewrite IH, <- app_assoc. reflexivity.
Qed.

Lemma fold_elems st :
  wf st -> fold_left (fun s c => step_abs c s) (elems st) (0, []) = st.
Proof.
  intros H. destruct st as [k names]. unfold elems. cbn [fst snd].
  rewrite fold_left_app, fold_dotdots, fold_names by assumption.
  reflexivity.
Qed.

Lemma run_join cs : forall st,
  wf st -> Forall is_elem cs ->
  run (join_slash cs) (render st) (dotdot_of st)
  = render (fold_left (fun s c => step_abs c s) cs st).
Proof.
  induction cs as [|c cs IH]; intros st Hwf Hcs; [reflexivity|].
  inversion Hcs as [|? ? [Hc _] Hcs']; subst. cbn [join_slash fold_left].
  destruct cs as [|c' cs].
  - rewrite <- (app_nil_r c) at 1. rewrite run_step by (assumption || reflexivity).
    reflexivity.
  - rewrite run_step by (assumption || reflexivity). rewrite run_slash.
    apply IH; [apply step_abs_wf|]; assumption.
Qed.

Lemma run_render st : wf st -> run (render st) [] 0 = render st.
Proof.
  intros H. change (run (render st) [] 0)
    with (run (join_slash (elems st)) (render (0, [])) (dotdot_of (0, []))).
  rewrite run_join; [|constructor|apply elems_are_elems; assumption].
  rewrite fold_elems by assumption. reflexivity.
Qed.


Lemma join_slash_unrooted cs : Forall is_elem cs -> unrooted (join_slash cs).
Proof.
  intros H. destruct H as [|c cs [Hc Hne] _]; [reflexivity|].
  destruct c as [|x c]; [congruence|]. inversion Hc; subst.
  cbn [join_slash]. destruct cs; assumption.
Qed.

Lemma last_app_cons {A} (l : list A) x l' d : List.last (l ++ x :: l') d = List.last (x :: l') d.
Proof.
  induction l as [|a l IH]; [reflexivity|].
  cbn [app]. rewrite <- IH. cbn [List.last]. destruct (l ++ x :: l') eqn:E; [|reflexivity].
  destruct l; discriminate.
Qed.

Lemma last_slash_free c : slash_free c -> is_slash (List.last c dot) = false.
Proof.
  induction 1 as [|x c Hx _ IH]; [reflexivity|].
  cbn [List.last]. destruct c; assumption.
Qed.

Lemma join_slash_last cs :
  Forall is_elem cs -> is_slash (List.last (join_slash cs) dot) = false.
Proof.
  induction 1 as [|c cs [Hc Hne] Hcs IH]; [reflexivity|].
  cbn [join_slash]. destruct cs as [|c' cs]; [apply last_slash_free; assumption|].
  rewrite last_app_cons.
  pose proof (join_slash_nonempty (c' :: cs) Hcs ltac:(discriminate)) as HJ.
  destruct (join_slash (c' :: cs)) eqn:E; [congruence|]. exact IH.
Qed.


Lemma Clean_bytes_cleaned t : unrooted t -> cleaned (Clean_bytes t).
Proof.
  intros Ht. destruct t as [|c p1]; [left; reflexivity|].
  unfold unrooted in Ht. cbn [hd] in Ht. unfold Clean_bytes. rewrite Ht.
  destruct (run_result (List.length (c :: p1)) (c :: p1) (0, []) (le_n _))
    as (st & Hst & Hrun); [constructor|].
  change (run (c :: p1) (render (0, [])) (dotdot_of (0, [])))
    with (clean_loop (List.length (c :: p1)) false (c :: p1) [] 0) in Hrun.
  rewrite Hrun. destruct (render st) eqn:E; [left; reflexivity|].
  right. exists st. rewrite E. repeat split; [assumption|discriminate].
Qed.

Lemma Clean_bytes_fixed r : cleaned r -> Clean_bytes r = r.
Proof.
  intros [->|(st & Hst & Hne & ->)]; [reflexivity|].
  pose proof (join_slash_unrooted _ (elems_are_elems st Hst)) as Hun.
  pose proof (run_render st Hst) as Hrun.
  fold (render st) in Hun. unfold unrooted in Hun.
  destruct (render st) as [|c p1] eqn:E; [congruence|].
  cbn [hd] in Hun. unfold Clean_bytes. rewrite Hun.
  unfold run in Hrun. rewrite Hrun. reflexivity.
Qed.

Lemma trimLeftByte_id s : unrooted s -> strings.trimLeftByte s slash = s.
Proof.
  intros H. destruct s as [|x s]; [reflexivity|].
  cbn [strings.trimLeftByte]. unfold unrooted, is_slash in H. cbn [hd] in H.
  rewrite H. reflexivity.
Qed.

Lemma trimLeftByte_unrooted s : unrooted (strings.trimLeftByte s slash).
Proof.
  induction s as [|x s IH]; [reflexivity|].
  cbn [strings.trimLeftByte]. destruct (Ascii.eqb x slash) eqn:E; [assumption|exact E].
Qed.

Lemma Trim_byte_unrooted p : unrooted (strings.Trim_byte p slash).
Proof.
  unfold strings.Trim_byte. destruct p; [reflexivity|apply trimLeftByte_unrooted].
Qed.

Lemma hd_rev (l : bytes) : hd dot (rev l) = List.last l dot.
Proof.
  induction l as [|x l IH] using rev_ind; [reflexivity|].
  rewrite rev_app_distr, last_last. reflexivity.
Qed.

Lemma Trim_byte_fixed r : cleaned r -> strings.Trim_byte r slash = r.
Proof.
  intros [->|(st & Hst & Hne & ->)]; [reflexivity|].
  pose proof (elems_are_elems st Hst) as Hel.
  pose proof (join_slash_unrooted _ Hel) as Hun.
  pose proof (join_slash_last _ Hel) as Hlast.
  fold (render st) in Hun, Hlast.
  unfold strings.Trim_byte, strings.trimRightByte.
  destruct (render st) eqn:E; [reflexivity|]. rewrite <- E in *.
  rewrite (trimLeftByte_id (rev (render st)))
    by (unfold unrooted; rewrite hd_rev; assumption).
  rewrite rev_involutive. apply trimLeftByte_id. assumption.
Qed.

End CleanUnrooted.

Lemma CleanPath_bytes p :
  list_ascii_of_string (CleanPath p)
  = path.Clean_bytes (strings.Trim_byte (list_ascii_of_string p) slash).
Proof.
  unfold CleanPath, path.Clean, strings.Trim.
  rewrite !list_ascii_of_string_of_list_ascii. reflexivity.
Qed.

Lemma schema_base_dir :
  path.Join [nth 0 (map strings.TrimSpace [DefaultBaseDir; GlobalSchemaPath; "/"]) "";
             nth 1 (map strings.TrimSpace [DefaultBaseDir; GlobalSchemaPath; "/"]) ""]
  = schema_dir.
Proof. vm_compute. reflexivity. Qed.

Lemma schema_full_dir :
  path.Join [schema_dir;
             nth 2 (map strings.TrimSpace [DefaultBaseDir; GlobalSchemaPath; "/"]) ""]
  = schema_dir.
Proof. vm_compute. reflexivity. Qed.

Lemma open_schema_unfold w :
  open_schema w =
  let w1 := record_event (EvStat schema_dir) w in
  if bool_decide (schema_dir ∈ dirs w) then open_after_stat w1
  else
    let w2 := record_event (EvMkdirAll schema_dir) w1 in
    if mkdir_fails (faults w) schema_dir
    then (inr (Errorf (Sentinel ErrDirectoryCreate) None
                 (Some (Errorf OsError (Some schema_dir) None))), w2)
    else open_after_stat
           (record_log (LogCreatedDir schema_dir)
              (with_dirs (with_parents schema_dir) w2)).
Proof.
  unfold open_schema, CreateLevelDBDatabase, buildPath.
  change ((List.length [DefaultBaseDir; GlobalSchemaPath; "/"] <? 2)%nat) with false.
  change ((2 <? List.length [DefaultBaseDir; GlobalSchemaPath; "/"])%nat) with true.
  cbv iota. rewrite schema_base_dir, schema_full_dir.
  unfold open_after_stat, bind, ret, os.Stat_IsNotExist, os.MkdirAll, leveldb.OpenFile,
    emit, log_Printf, get_world, add_dirs, bind, ret.
  cbn -[with_parents schema_dir].
  destruct (bool_decide (schema_dir ∈ dirs w)); cbn -[with_parents schema_dir].
  - destruct (open_fails (faults w) schema_dir); reflexivity.
  - destruct (mkdir_fails (faults w) schema_dir); [reflexivity|].
    cbn -[with_parents schema_dir].
    destruct (open_fails (faults w) schema_dir); reflexivity.
Qed.

(** ** The primitives, step by step *)

Lemma store_at_with_store d m w : store_at (with_store d m w) d = m.
Proof. unfold store_at, with_store. cbn. rewrite lookup_insert_eq. reflexivity. Qed.

Lemma Get_run db key w :
  leveldb.Get db key w =
  (if get_fails (faults w) (leveldb.db_path db) key then ("", Some LevelDBError)
   else match store_at w (leveldb.db_path db) !! key with
        | Some v => (v, None)
        | None => ("", Some LevelDBNotFound)
        end,
   record_event (EvGet (leveldb.db_path db) key) w).
Proof.
  unfold leveldb.Get, bind, emit, get_world, ret. cbn.
  change (store_at (record_event _ w)) with (store_at w).
  destruct (get_fails _ _ _); [reflexivity|].
  destruct (store_at w _ !! key); reflexivity.
Qed.

Lemma Put_run db key value w :
  leveldb.Put db key value w =
  let w1 := record_event (EvPut (leveldb.db_path db) key value) w in
  if put_fails (faults w) (leveldb.db_path db) key then (Some LevelDBError, w1)
  else (None, with_store (leveldb.db_path db)
                (<[key := value]> (store_at w (leveldb.db_path db))) w1).
Proof.
  unfold leveldb.Put, bind, emit, get_world, ret, set_store. cbn.
  change (store_at (record_event _ w)) with (store_at w).
  destruct (put_fails _ _ _); reflexivity.
Qed.

Lemma Delete_run db key w :
  leveldb.Delete db key w =
  let w1 := record_event (EvDelete (leveldb.db_path db) key) w in
  if delete_fails (faults w) (leveldb.db_path db) key then (Some LevelDBError, w1)
  else (None, with_store (leveldb.db_path db)
                (delete key (store_at w (leveldb.db_path db))) w1).
Proof.
  unfold leveldb.Delete, bind, emit, get_world, ret, set_store. cbn.
  change (store_at (record_event _ w)) with (store_at w).
  destruct (delete_fails _ _ _); reflexivity.
Qed.

Lemma env_kept_refl w : env_kept w w.
Proof. split; reflexivity. Qed.

Lemma env_kept_trans w1 w2 w3 : env_kept w1 w2 -> env_kept w2 w3 -> env_kept w1 w3.
Proof. intros [F1 D1] [F2 D2]. split; [congruence|etrans; eassumption]. Qed.

(** ** Opening the store of the directory *)

Ltac dirs_mono :=
  cbn -[with_parents];
  first [ reflexivity
        | apply union_subseteq_r
        | (etrans; [|apply union_subseteq_r]); apply union_subseteq_r ].

Lemma store_opens_eq w :
  store_opens w =
  (bool_decide (schema_dir ∈ dirs w) || negb (mkdir_fails (faults w) schema_dir))
  && negb (open_fails (faults w) schema_dir).
Proof.
  unfold store_opens. rewrite open_schema_unfold. unfold open_after_stat. cbn.
  destruct (bool_decide (schema_dir ∈ dirs w)); cbn.
  - destruct (open_fails (faults w) schema_dir); reflexivity.
  - destruct (mkdir_fails (faults w) schema_dir); [reflexivity|]. cbn.
    destruct (open_fails (faults w) schema_dir); reflexivity.
Qed.

Lemma schema_dir_with_parents : schema_dir ∈ with_parents schema_dir.
Proof. apply list_elem_of_In. vm_compute. auto. Qed.

(** Whatever [open_schema] returns, it writes to no store; when it
    returns a store, it is the one at [schema_dir], whose directory exists
    from then on. *)
Lemma open_schema_inv w r w1 :
  open_schema w = (r, w1) ->
  stores w1 = stores w /\ env_kept w w1 /\
  match r with
  | inl db => db = schema_db /\ store_opens w = true /\ store_opens w1 = true
  | inr _ => store_opens w = false
  end.
Proof.
  intros H. pose proof (store_opens_eq w) as Hw. pose proof (store_opens_eq w1) as Hw1.
  rewrite open_schema_unfold in H. unfold open_after_stat in H.
  cbn -[with_parents] in H.
  pose proof schema_dir_with_parents as Hin.
  assert (forall ds : gset string, schema_dir ∈ list_to_set (with_parents schema_dir) ∪ ds)
    as Hin' by (intros ds; apply elem_of_union_l, elem_of_list_to_set, Hin).
  destruct (bool_decide (schema_dir ∈ dirs w)) eqn:Hd;
    [|destruct (mkdir_fails (faults w) schema_dir) eqn:Hm];
    cbn -[with_parents] in H, Hw;
    try (destruct (open_fails (faults w) schema_dir) eqn:Ho);
    injection H as <- <-; cbn -[with_parents] in Hw, Hw1 |- *;
    (split; [reflexivity|]);
    (split; [split; [reflexivity|dirs_mono]|]);
    try assumption;
    (split; [reflexivity|]); (split; [assumption|]);
    rewrite Hw1, Ho, bool_decide_eq_true_2 by apply Hin'; reflexivity.
Qed.

Lemma store_opens_kept w w' :
  env_kept w w' -> store_opens w = true -> store_opens w' = true.
Proof.
  intros [Hf Hd]. rewrite !store_opens_eq, Hf.
  destruct (open_fails (faults w) schema_dir); [rewrite andb_false_r; congruence|].
  rewrite !andb_true_r. destruct (bool_decide_reflect (schema_dir ∈ dirs w)) as [Hin|Hin].
  - intros _. rewrite bool_decide_eq_true_2 by (apply Hd, Hin). reflexivity.
  - cbn. intros ->. apply orb_true_r.
Qed.

(** ** The operations against their models *)

Lemma schema_kept w w' : stores w' = stores w -> schema w' = schema w.
Proof. intros H. unfold schema, store_at. rewrite H. reflexivity. Qed.

Ltac open_store Ho :=
  unfold bind at 1;
  match goal with
  | |- context [open_schema ?w] =>
      let r := fresh "r" in
      let w1 := fresh "w1" in
      let Hs := fresh "Hs" in
      let Hk := fresh "Hk" in
      let Hr := fresh "Hr" in
      destruct (open_schema w) as [r w1] eqn:Ho;
      pose proof (open_schema_inv _ _ _ Ho) as (Hs & Hk & Hr);
      cbn [fst snd]; destruct r as [? | ?];
      [ destruct Hr as (-> & ? & ?) | ]
  end.

Lemma FragmentationGet_refines rowID w :
  let '(r, w') := FragmentationGet rowID w in
  r = get_model w rowID /\ stores w' = stores w /\ env_kept w w'.
Proof.
  unfold FragmentationGet, get_model.
  destruct (String.eqb rowID ""); [repeat split; reflexivity|].
  open_store Ho.
  - unfold defer_Close, bind. rewrite Get_run. cbn [leveldb.db_path schema_db].
    destruct Hk as [Hf Hd]. rewrite Hf. fold (schema w1). rewrite (schema_kept _ _ Hs).
    destruct (get_fails (faults w) schema_dir rowID); [cbn; repeat split; assumption|].
    destruct (schema w !! rowID) as [v|]; [|cbn; repeat split; assumption].
    destruct (strconv.ParseInt v) as [n [ne|]]; cbn; repeat split; assumption.
  - cbn. repeat split; try assumption; apply Hk.
Qed.

Lemma FragmentationExists_refines key w :
  let '(r, w') := FragmentationExists key w in
  r = exists_model w key /\ stores w' = stores w /\ env_kept w w'.
Proof.
  unfold FragmentationExists, exists_model.
  destruct (String.eqb key ""); [repeat split; reflexivity|].
  open_store Ho.
  - unfold defer_Close, bind. rewrite Get_run. cbn [leveldb.db_path schema_db].
    destruct Hk as [Hf Hd]. rewrite Hf. fold (schema w1). rewrite (schema_kept _ _ Hs).
    destruct (get_fails (faults w) schema_dir key); [cbn; repeat split; assumption|].
    destruct (schema w !! key) as [v|]; cbn; repeat split; assumption.
  - cbn. repeat split; try assumption; apply Hk.
Qed.

Lemma schema_with_store m w : schema (with_store schema_dir m w) = m.
Proof. apply store_at_with_store. Qed.

Lemma schema_record_log l w : schema (record_log l w) = schema w.
Proof. reflexivity. Qed.

Lemma schema_record_event e w : schema (record_event e w) = schema w.
Proof. reflexivity. Qed.

Lemma FragmentationRemove_refines key w :
  let '(r, w') := FragmentationRemove key w in
  r = fst (remove_model w key) /\ schema w' = snd (remove_model w key) /\ env_kept w w'.
Proof.
  unfold FragmentationRemove, remove_model.
  destruct (String.eqb key ""); [repeat split; reflexivity|].
  open_store Ho.
  - unfold defer_Close, bind. rewrite Get_run. cbn [leveldb.db_path schema_db].
    destruct Hk as [Hf Hd]. rewrite Hf. fold (schema w1).
    pose proof (schema_kept _ _ Hs) as Hm. rewrite Hm.
    destruct (get_fails (faults w) schema_dir key); [cbn; repeat split; assumption|].
    destruct (schema w !! key) as [v|]; [|cbn; repeat split; assumption].
    rewrite Delete_run. cbn [leveldb.db_path schema_db faults record_event].
    change (store_at (record_event ?e w1) schema_dir) with (schema w1).
    rewrite Hf, Hm.
    destruct (delete_fails (faults w) schema_dir key); cbn -[schema];
      repeat split; try assumption.
    apply (schema_with_store _ (record_event _ (record_event _ w1))).
  - cbn -[schema]. repeat split; try apply Hk. apply schema_kept. assumption.
Qed.

Lemma add_keys_refines shard shardBytes keys : forall w,
  let '(r, w') := add_keys schema_db shard shardBytes keys w in
  r = fst (add_keys_model (faults w) shardBytes keys (schema w)) /\
  schema w' = snd (add_keys_model (faults w) shardBytes keys (schema w)) /\
  env_kept w w'.
Proof.
  induction keys as [|key keys IH]; intros w; cbn [add_keys add_keys_model].
  - repeat split; reflexivity.
  - destruct (String.eqb key "").
    + unfold bind, log_Printf. specialize (IH (record_log LogSkipEmptyKey w)).
      destruct (add_keys _ _ _ _ _) as [r w']. exact IH.
    + unfold bind at 1. rewrite Put_run. cbn [leveldb.db_path schema_db].
      fold (schema w).
      destruct (put_fails (faults w) schema_dir key); [repeat split; reflexivity|].
      cbv zeta. unfold bind, log_Printf.
      match goal with |- context [add_keys _ _ _ _ ?w2] => specialize (IH w2) end.
      destruct (add_keys _ _ _ _ _) as [r w'].
      rewrite schema_record_log, schema_with_store in IH. exact IH.
Qed.

Lemma FragmentationAdd_refines shard keys w :
  let '(r, w') := FragmentationAdd shard keys w in
  r = fst (add_model w shard keys) /\ schema w' = snd (add_model w shard keys) /\
  env_kept w w'.
Proof.
  unfold FragmentationAdd, add_model.
  destruct keys as [|key keys]; [repeat split; reflexivity|].
  change ((List.length (key :: keys) =? 0)%nat) with false. cbv iota.
  open_store Ho.
  - unfold defer_Close, bind.
    pose proof (add_keys_refines shard (fmt.Sprintf_d shard) (key :: keys) w1) as Hadd.
    destruct (add_keys _ _ _ _ _) as [r w2].
    destruct Hk as [Hf Hd]. rewrite Hf, (schema_kept _ _ Hs) in Hadd.
    destruct Hadd as (-> & Hm & [Hf2 Hd2]).
    cbn -[schema add_keys_model]. rewrite schema_record_event.
    repeat split; [assumption|cbn; congruence|cbn; etrans; eassumption].
  - cbn -[schema]. repeat split; try apply Hk. apply schema_kept. assumption.
Qed.

Lemma exists_model_true w key :
  exists_model w key = (true, None) -> key <> "" /\ store_opens w = true.
Proof.
  unfold exists_model, store_opens.
  destruct (String.eqb_spec key ""); [discriminate|].
  destruct (fst (open_schema w)); [split; [assumption|reflexivity]|discriminate].
Qed.

Lemma FragmentationUpdate_refines key newShard w :
  let '(r, w') := FragmentationUpdate key newShard w in
  r = fst (update_model w key newShard) /\
  schema w' = snd (update_model w key newShard) /\ env_kept w w'.
Proof.
  unfold FragmentationUpdate, update_model.
  destruct (String.eqb key "") eqn:Hkey.
  { unfold exists_model. rewrite Hkey. repeat split; reflexivity. }
  unfold bind at 1. pose proof (FragmentationExists_refines key w) as Hex.
  destruct (FragmentationExists key w) as [[b err] w1].
  destruct Hex as (Hex & Hs & Hk). rewrite <- Hex.
  destruct err as [e|].
  { destruct b; cbn -[schema]; repeat split; try apply Hk; apply schema_kept, Hs. }
  destruct b; cbn [negb];
    [|cbn -[schema]; repeat split; try apply Hk; apply schema_kept, Hs].
  symmetry in Hex. apply exists_model_true in Hex as [_ Hopen].
  pose proof (store_opens_kept _ _ Hk Hopen) as Hopen1.
  unfold bind at 1. destruct (open_schema w1) as [r w2] eqn:Ho.
  pose proof (open_schema_inv _ _ _ Ho) as (Hs2 & Hk2 & Hr).
  destruct r as [db|e]; [destruct Hr as (-> & _ & _)|congruence].
  unfold defer_Close, bind. rewrite Put_run. cbn [leveldb.db_path schema_db].
  fold (schema w2). rewrite (schema_kept _ _ Hs2), (schema_kept _ _ Hs).
  destruct Hk as [Hf Hd], Hk2 as [Hf2 Hd2]. rewrite Hf2, Hf.
  destruct (put_fails (faults w) schema_dir key); cbn -[schema].
  - rewrite !schema_record_event, (schema_kept _ _ Hs2), (schema_kept _ _ Hs).
    repeat split; [cbn; congruence|cbn; etrans; eassumption].
  - repeat split; [|cbn; congruence|cbn; etrans; eassumption].
    rewrite schema_record_event, schema_record_log.
    apply (schema_with_store _ (record_event _ w2)).
Qed.

(** ** Consequences used by the properties *)

Lemma store_opens_inl w :
  store_opens w = true -> exists db, fst (open_schema w) = inl db.
Proof.
  unfold store_opens. destruct (fst (open_schema w)) as [db|e]; [eauto|discriminate].
Qed.

Lemma healthy_opens w : healthy w -> store_opens w = true.
Proof.
  intros (Hm & Ho & _). rewrite store_opens_eq, Hm, Ho, orb_true_r. reflexivity.
Qed.

Lemma healthy_kept w w' : env_kept w w' -> healthy w -> healthy w'.
Proof. intros [Hf _]. unfold healthy. rewrite Hf. trivial. Qed.

Lemma eqb_empty_false key : key <> "" -> String.eqb key "" = false.
Proof. apply String.eqb_neq. Qed.

(** Reading a key. *)
Lemma get_present w key z :
  key <> "" -> store_opens w = true -> get_fails (faults w) schema_dir key = false ->
  in_int64 z -> schema w !! key = Some (fmt.Sprintf_d z) ->
  fst (FragmentationGet key w) = (z, None).
Proof.
  intros Hkey Hopen Hget Hz Hlook.
  pose proof (FragmentationGet_refines key w) as H.
  destruct (FragmentationGet key w) as [r w']. destruct H as (-> & _). cbn [fst].
  unfold get_model. rewrite eqb_empty_false by assumption.
  destruct (store_opens_inl _ Hopen) as [db ->].
  rewrite Hget, Hlook, ParseInt_Sprintf_d by assumption. reflexivity.
Qed.

Lemma get_absent w key :
  key <> "" -> store_opens w = true -> schema w !! key = None ->
  exists e, fst (FragmentationGet key w) = (-1, Some e)
            /\ errors_Is e ErrShardNotFound = true.
Proof.
  intros Hkey Hopen Hlook.
  pose proof (FragmentationGet_refines key w) as H.
  destruct (FragmentationGet key w) as [r w']. destruct H as (-> & _). cbn [fst].
  unfold get_model. rewrite eqb_empty_false by assumption.
  destruct (store_opens_inl _ Hopen) as [db ->]. rewrite Hlook.
  destruct (get_fails (faults w) schema_dir key); eexists; split; reflexivity.
Qed.

Lemma exists_absent w key :
  key <> "" -> store_opens w = true -> schema w !! key = None ->
  fst (FragmentationExists key w) = (false, None).
Proof.
  intros Hkey Hopen Hlook.
  pose proof (FragmentationExists_refines key w) as H.
  destruct (FragmentationExists key w) as [r w']. destruct H as (-> & _). cbn [fst].
  unfold exists_model. rewrite eqb_empty_false by assumption.
  destruct (store_opens_inl _ Hopen) as [db ->]. rewrite Hlook.
  destruct (get_fails (faults w) schema_dir key); reflexivity.
Qed.

(** Writing keys. *)
Lemma add_keys_model_success f sb keys : forall m m',
  add_keys_model f sb keys m = (None, m') -> m' = put_keys sb keys m.
Proof.
  induction keys as [|key keys IH]; intros m m' H; cbn [add_keys_model put_keys fold_left] in *.
  - congruence.
  - destruct (String.eqb key ""); [apply IH; assumption|].
    destruct (put_fails f schema_dir key); [discriminate|]. apply IH. assumption.
Qed.

Lemma add_keys_model_healthy f sb keys :
  (forall k, put_fails f schema_dir k = false) ->
  forall m, add_keys_model f sb keys m = (None, put_keys sb keys m).
Proof.
  intros Hput. induction keys as [|key keys IH]; intros m;
    cbn [add_keys_model put_keys fold_left]; [reflexivity|].
  destruct (String.eqb key ""); [apply IH|]. rewrite Hput. apply IH.
Qed.

Lemma add_success shard keys w w1 :
  FragmentationAdd shard keys w = (None, w1) ->
  store_opens w1 = true /\ faults w1 = faults w /\
  schema w1 = put_keys (fmt.Sprintf_d shard) keys (schema w).
Proof.
  intros H. pose proof (FragmentationAdd_refines shard keys w) as Href.
  rewrite H in Href. destruct Href as (Hr & Hm & Hk).
  unfold add_model in Hr, Hm. destruct keys as [|key keys]; [discriminate|].
  destruct (fst (open_schema w)) as [db|e] eqn:Ho; [|discriminate].
  assert (store_opens w = true) as Hopen by (unfold store_opens; rewrite Ho; reflexivity).
  repeat split; [eapply store_opens_kept; eassumption|apply Hk|].
  destruct (add_keys_model _ _ _ _) as [r m'] eqn:E. cbn [fst snd] in *.
  subst r. rewrite Hm. eapply add_keys_model_success. exact E.
Qed.

Lemma add_healthy shard keys w :
  keys <> [] -> healthy w ->
  exists w1, FragmentationAdd shard keys w = (None, w1) /\ healthy w1 /\
    schema w1 = put_keys (fmt.Sprintf_d shard) keys (schema w).
Proof.
  intros Hne Hw. pose proof (FragmentationAdd_refines shard keys w) as Href.
  destruct (FragmentationAdd shard keys w) as [r w1]. destruct Href as (Hr & Hm & Hk).
  unfold add_model in Hr, Hm. destruct keys as [|key keys]; [congruence|].
  destruct (store_opens_inl _ (healthy_opens _ Hw)) as [db Ho]. rewrite Ho in Hr, Hm.
  destruct Hw as (Hmk & Hop & Hget & Hput & Hdel).
  rewrite add_keys_model_healthy in Hr, Hm by assumption. cbn [fst snd] in *. subst r.
  exists w1. repeat split; try assumption; destruct Hk as [-> _]; assumption.
Qed.

(** Removing a key. *)
Lemma remove_absent w key :
  key <> "" -> store_opens w = true -> schema w !! key = None ->
  exists e, fst (FragmentationRemove key w) = Some e
            /\ errors_Is e ErrShardNotFound = true.
Proof.
  intros Hkey Hopen Hlook.
  pose proof (FragmentationRemove_refines key w) as H.
  destruct (FragmentationRemove key w) as [r w']. destruct H as (-> & _). cbn [fst].
  unfold remove_model. rewrite eqb_empty_false by assumption.
  destruct (store_opens_inl _ Hopen) as [db ->]. rewrite Hlook.
  destruct (get_fails (faults w) schema_dir key); eexists; split; reflexivity.
Qed.

Lemma remove_present w key v :
  key <> "" -> healthy w -> schema w !! key = Some v ->
  exists w', FragmentationRemove key w = (None, w') /\ healthy w' /\
    schema w' = delete key (schema w).
Proof.
  intros Hkey Hw Hlook.
  pose proof (FragmentationRemove_refines key w) as H.
  destruct (FragmentationRemove key w) as [r w']. destruct H as (Hr & Hm & Hk).
  unfold remove_model in Hr, Hm. rewrite eqb_empty_false in Hr, Hm by assumption.
  destruct (store_opens_inl _ (healthy_opens _ Hw)) as [db Ho]. rewrite Ho in Hr, Hm.
  pose proof Hw as (_ & _ & Hget & _ & Hdel).
  rewrite Hget, Hlook, Hdel in Hr, Hm. cbn [fst snd] in *. subst r.
  exists w'. split; [reflexivity|]. split; [eapply healthy_kept; eassumption|assumption].
Qed.

(** ** The invariant of the index *)

Lemma dir_inv_empty : dir_inv ∅.
Proof. intros k v H. rewrite lookup_empty in H. discriminate. Qed.

Lemma dir_inv_insert m key z :
  dir_inv m -> key <> "" -> in_int64 z -> dir_inv (<[key := fmt.Sprintf_d z]> m).
Proof.
  intros Hm Hkey Hz k v H. destruct (decide (key = k)) as [<-|Hne].
  - rewrite lookup_insert_eq in H. inversion H; subst. split; [assumption|eauto].
  - rewrite lookup_insert_ne in H by assumption. apply Hm. assumption.
Qed.

Lemma dir_inv_delete m key : dir_inv m -> dir_inv (delete key m).
Proof.
  intros Hm k v H. destruct (decide (key = k)) as [<-|Hne].
  - rewrite lookup_delete_eq in H. discriminate.
  - rewrite lookup_delete_ne in H by assumption. apply Hm. assumption.
Qed.

Lemma dir_inv_add_keys f z keys : in_int64 z -> forall m,
  dir_inv m -> dir_inv (snd (add_keys_model f (fmt.Sprintf_d z) keys m)).
Proof.
  intros Hz. induction keys as [|key keys IH]; intros m Hm; cbn [add_keys_model].
  - assumption.
  - destruct (String.eqb_spec key ""); [apply IH; assumption|].
    destruct (put_fails f schema_dir key); [assumption|].
    apply IH. apply dir_inv_insert; assumption.
Qed.

Lemma run_op_inv op w : op_typed op -> dir_inv (schema w) -> dir_inv (schema (run_op op w)).
Proof.
  intros Hop Hw. destruct op as [shard keys|key newShard|key|key|key]; cbn [run_op op_typed] in *.
  - pose proof (FragmentationAdd_refines shard keys w) as H.
    destruct (FragmentationAdd shard keys w) as [r w']. cbn [snd]. destruct H as (_ & -> & _).
    unfold add_model. destruct keys; [cbn [snd]; assumption|].
    destruct (fst (open_schema w)); [|cbn [snd]; assumption]. apply dir_inv_add_keys; assumption.
  - pose proof (FragmentationUpdate_refines key newShard w) as H.
    destruct (FragmentationUpdate key newShard w) as [r w']. cbn [snd]. destruct H as (_ & -> & _).
    unfold update_model. destruct (exists_model w key) as [b [e|]] eqn:Hex;
      [destruct b; cbn [snd]; assumption|].
    destruct b; [|cbn [snd]; assumption]. apply exists_model_true in Hex as [Hkey _].
    destruct (put_fails (faults w) schema_dir key); [cbn [snd]; assumption|].
    cbn [snd]. apply dir_inv_insert; assumption.
  - pose proof (FragmentationRemove_refines key w) as H.
    destruct (FragmentationRemove key w) as [r w']. cbn [snd]. destruct H as (_ & -> & _).
    unfold remove_model. destruct (String.eqb key ""); [cbn [snd]; assumption|].
    destruct (fst (open_schema w)); [|cbn [snd]; assumption].
    destruct (get_fails (faults w) schema_dir key); [cbn [snd]; assumption|].
    destruct (schema w !! key); [|cbn [snd]; assumption].
    destruct (delete_fails (faults w) schema_dir key); [cbn [snd]; assumption|].
    cbn [snd]. apply dir_inv_delete. assumption.
  - pose proof (FragmentationGet_refines key w) as H.
    destruct (FragmentationGet key w) as [r w']. destruct H as (_ & Hs & _).
    cbn [snd]. rewrite (schema_kept _ _ Hs). assumption.
  - pose proof (FragmentationExists_refines key w) as H.
    destruct (FragmentationExists key w) as [r w']. destruct H as (_ & Hs & _).
    cbn [snd]. rewrite (schema_kept _ _ Hs). assumption.
Qed.

Lemma reachable_inv w : reachable w -> dir_inv (schema w).
Proof.
  induction 1 as [w H|w op _ IH Hop|w w' _ IH H].
  - rewrite H. apply dir_inv_empty.
  - apply run_op_inv; assumption.
  - rewrite H. assumption.
Qed.

(** ** Directories *)

Lemma parents_loop_self rest : forall pre,
  In (string_of_list_ascii (pre ++ rest)) (parents_loop pre rest).
Proof.
  induction rest as [|c rest IH]; intros pre; cbn [parents_loop].
  - rewrite app_nil_r. left. reflexivity.
  - apply in_or_app. right. specialize (IH (pre ++ [c])).
    rewrite <- app_assoc in IH. exact IH.
Qed.

Lemma with_parents_self dir : dir ∈ with_parents dir.
Proof.
  apply list_elem_of_In. unfold with_parents.
  pose proof (parents_loop_self (list_ascii_of_string dir) []) as H.
  cbn [app] in H. rewrite string_of_list_ascii_of_string in H. exact H.
Qed.

(** ** Batches of keys *)

Lemma put_keys_app value ks1 ks2 m :
  put_keys value (ks1 ++ ks2) m = put_keys value ks2 (put_keys value ks1 m).
Proof. unfold put_keys. apply fold_left_app. Qed.

Lemma put_keys_cons value key keys m :
  put_keys value (key :: keys) m
  = put_keys value keys (if String.eqb key "" then m else <[key := value]> m).
Proof. reflexivity. Qed.

Lemma put_keys_other value keys k : forall m,
  ~ In k keys -> put_keys value keys m !! k = m !! k.
Proof.
  induction keys as [|key keys IH]; intros m Hk; [reflexivity|].
  rewrite put_keys_cons. cbn [In] in Hk.
  rewrite IH by tauto. destruct (String.eqb key ""); [reflexivity|].
  apply lookup_insert_ne. tauto.
Qed.

Lemma put_keys_written value keys k : forall m,
  In k keys -> k <> "" -> put_keys value keys m !! k = Some value.
Proof.
  induction keys as [|key keys IH]; intros m Hin Hk; [destruct Hin|].
  rewrite put_keys_cons.
  destruct (in_dec string_dec k keys) as [Hlater|Hlater]; [apply IH; assumption|].
  rewrite put_keys_other by assumption.
  destruct Hin as [->|Hin]; [|contradiction].
  rewrite eqb_empty_false by assumption. apply lookup_insert_eq.
Qed.

Lemma put_keys_empty value keys : forall m,
  put_keys value keys m !! "" = m !! "".
Proof.
  induction keys as [|key keys IH]; intros m; [reflexivity|].
  rewrite put_keys_cons, IH.
  destruct (String.eqb key "") eqn:E; [reflexivity|].
  apply lookup_insert_ne. apply String.eqb_neq. assumption.
Qed.


(** * The properties of the specification *)

(** ** Round trip *)

(** C1. For every non-empty key and every int64 shard, when
    [FragmentationAdd(shard, key)] returns success, a following
    [FragmentationGet(key)] whose read of the store does not fail returns
    exactly [shard]: the decimal text written by Add parses back to the same
    int64. *)
Theorem add_get_round_trip (shard : Z) (key : string) (w w1 : World) :
  key <> "" -> in_int64 shard ->
  FragmentationAdd shard [key] w = (None, w1) ->
  get_fails (faults w1) schema_dir key = false ->
  fst (FragmentationGet key w1) = (shard, None).
Proof.
  intros Hkey Hshard Hadd Hget.
  apply add_success in Hadd as (Hopen & _ & Hm).
  apply get_present; try assumption.
  rewrite Hm. cbn [put_keys fold_left]. rewrite eqb_empty_false by assumption.
  apply lookup_insert_eq.
Qed.

Lemma add_get_round_trip_witness :
  "user_001" <> "" /\ in_int64 (-42) /\
  fst (FragmentationGet "user_001" (snd (FragmentationAdd (-42) ["user_001"] fresh_world)))
  = (-42, None).
Proof.
  split; [discriminate|]. split; [unfold in_int64, minInt64, maxInt64; lia|].
  apply (add_get_round_trip (-42) "user_001" fresh_world).
  - discriminate.
  - unfold in_int64, minInt64, maxInt64. lia.
  - vm_compute. reflexivity.
  - reflexivity.
Defined.

(** ** Empty keys *)

(** C2 (amended). [FragmentationGet], [FragmentationExists],
    [FragmentationUpdate] and [FragmentationRemove] given the key [""] return
    [ErrEmptyKey] and leave the world as it is: no store is opened, no
    directory is created, nothing is logged.  [FragmentationAdd] returns
    [ErrEmptyKey] without any I/O for an empty key list.  Given the list
    [[""]] it does its I/O: it looks for the directory and opens the store;
    it writes nothing to the index, and returns success when the store
    opens and the open error otherwise. *)
Theorem empty_key_rejected (shard : Z) (w : World) :
  FragmentationGet "" w = ((-1, Some (Sentinel ErrEmptyKey)), w) /\
  FragmentationExists "" w = ((false, Some (Sentinel ErrEmptyKey)), w) /\
  FragmentationUpdate "" shard w = (Some (Sentinel ErrEmptyKey), w) /\
  FragmentationRemove "" w = (Some (Sentinel ErrEmptyKey), w) /\
  FragmentationAdd shard [] w = (Some (Sentinel ErrEmptyKey), w) /\
  (let '(r, w') := FragmentationAdd shard [""] w in
   r = match fst (open_schema w) with
       | inl _ => None
       | inr e => Some (open_error e)
       end /\
   schema w' = schema w /\
   exists events, trace w' = trace w ++ EvStat schema_dir :: events).
Proof.
  repeat (split; [reflexivity|]).
  pose proof (FragmentationAdd_refines shard [""] w) as Href.
  unfold FragmentationAdd in *. change ((List.length [""] =? 0)%nat) with false in *.
  cbv iota in *. unfold bind at 1 in Href. unfold bind at 1.
  unfold add_model in Href. rewrite open_schema_unfold in *.
  unfold open_after_stat in *. cbn -[with_parents schema] in *.
  destruct (bool_decide (schema_dir ∈ dirs w));
    [|destruct (mkdir_fails (faults w) schema_dir)];
    cbn -[with_parents schema] in *;
    try destruct (open_fails (faults w) schema_dir);
    cbn -[with_parents schema] in *;
    destruct Href as (Hr & Hm & _);
    (split; [assumption|]); (split; [assumption|]);
    eexists; rewrite <- ?app_assoc; reflexivity.
Qed.

(** C2, as stated, fails for Add: with the key list [[""]] on a fresh disk
    [FragmentationAdd] returns success, not [ErrEmptyKey], after creating the
    directory and opening and closing the store. *)
Lemma add_empty_string_does_io :
  fst (FragmentationAdd 1 [""] fresh_world) = None /\
  fst (FragmentationAdd 1 [""] fresh_world) <> Some (Sentinel ErrEmptyKey) /\
  trace (snd (FragmentationAdd 1 [""] fresh_world))
  = [EvStat "Database/GlobalSchema"; EvMkdirAll "Database/GlobalSchema";
     EvOpenFile "Database/GlobalSchema"; EvClose "Database/GlobalSchema"] /\
  logs (snd (FragmentationAdd 1 [""] fresh_world))
  = [LogCreatedDir "Database/GlobalSchema"; LogOpening "Database/GlobalSchema";
     LogSkipEmptyKey] /\
  snd (FragmentationAdd 1 [""] fresh_world) <> fresh_world.
Proof.
  split; [vm_compute; reflexivity|]. split; [vm_compute; discriminate|].
  split; [vm_compute; reflexivity|]. split; [vm_compute; reflexivity|].
  intros H. apply (f_equal trace) in H. vm_compute in H. discriminate.
Qed.

(** ** Batches *)

(** C3. A mixed batch.  In a world without storage faults that the
    directory can be in, for every int64 shard and every non-empty list of
    keys, empty strings among them or not, [FragmentationAdd(shard, keys...)]
    returns success; afterwards [Get(k)] returns [shard] for every non-empty
    key [k] of the list, wherever the empty strings stand, and there is no
    assignment for [""].  For [Add(1, "a", "", "b")]: [Get("a")] and
    [Get("b")] return 1. *)
Theorem add_mixed_batch (shard : Z) (keys : list string) (w : World) :
  keys <> [] -> in_int64 shard -> healthy w -> reachable w ->
  exists w',
    FragmentationAdd shard keys w = (None, w') /\
    (forall k, In k keys -> k <> "" -> fst (FragmentationGet k w') = (shard, None)) /\
    schema w' !! "" = None /\
    fst (FragmentationExists "" w') = (false, Some (Sentinel ErrEmptyKey)).
Proof.
  intros Hne Hshard Hw Hreach.
  destruct (add_healthy shard keys w Hne Hw) as (w' & Hadd & Hw' & Hm).
  exists w'. split; [assumption|].
  pose proof Hw' as (_ & _ & Hget & _).
  split; [|split; [|reflexivity]].
  - intros k Hin Hk. apply get_present; try (assumption || apply Hget).
    + apply healthy_opens. assumption.
    + rewrite Hm. apply put_keys_written; assumption.
  - rewrite Hm, put_keys_empty.
    destruct (schema w !! "") as [v|] eqn:E; [|reflexivity].
    apply (reachable_inv w Hreach) in E as [E _]. congruence.
Qed.

Lemma healthy_fresh_world : healthy fresh_world.
Proof. repeat split. Defined.

Lemma reachable_fresh_world : reachable fresh_world.
Proof. apply reach_fresh. reflexivity. Defined.

Lemma add_mixed_batch_witness :
  ["a"; ""; "b"] <> [] /\ in_int64 1 /\ healthy fresh_world /\ reachable fresh_world /\
  exists w',
    FragmentationAdd 1 ["a"; ""; "b"] fresh_world = (None, w') /\
    fst (FragmentationGet "a" w') = (1, None) /\
    fst (FragmentationGet "b" w') = (1, None) /\
    schema w' !! "" = None /\
    fst (FragmentationExists "" w') = (false, Some (Sentinel ErrEmptyKey)).
Proof.
  split; [discriminate|]. split; [unfold in_int64, minInt64, maxInt64; lia|].
  split; [exact healthy_fresh_world|]. split; [exact reachable_fresh_world|].
  destruct (add_mixed_batch 1 ["a"; ""; "b"] fresh_world)
    as (w' & Hadd & Hget & Hnone & Hex).
  - discriminate.
  - unfold in_int64, minInt64, maxInt64. lia.
  - repeat split.
  - apply reach_fresh. reflexivity.
  - exists w'. split; [exact Hadd|].
    split; [apply Hget; [simpl; tauto|discriminate]|].
    split; [apply Hget; [simpl; tauto|discriminate]|].
    split; [exact Hnone|exact Hex].
Defined.

(** ** Update and Remove need the key *)

(** C4. For every key of the directory (a non-empty string) that has no
    assignment, in a world where the store opens,
    [FragmentationUpdate(key, newShard)] fails with [ErrShardNotFound] and
    creates nothing: the index is unchanged and [FragmentationExists(key)]
    is still false. *)
Theorem update_requires_existence (key : string) (newShard : Z) (w : World) :
  key <> "" -> store_opens w = true -> schema w !! key = None ->
  exists e w',
    FragmentationUpdate key newShard w = (Some e, w') /\
    errors_Is e ErrShardNotFound = true /\
    schema w' = schema w /\
    fst (FragmentationExists key w') = (false, None).
Proof.
  intros Hkey Hopen Hlook.
  pose proof (FragmentationUpdate_refines key newShard w) as H.
  destruct (FragmentationUpdate key newShard w) as [r w']. destruct H as (Hr & Hm & Hk).
  unfold update_model, exists_model in Hr, Hm.
  rewrite eqb_empty_false in Hr, Hm by assumption.
  destruct (store_opens_inl _ Hopen) as [db Ho]. rewrite Ho, Hlook in Hr, Hm.
  assert (r = Some (Errorf (Sentinel ErrShardNotFound) (Some key) None)
          /\ schema w' = schema w) as [-> Hm']
    by (destruct (get_fails (faults w) schema_dir key); split; assumption).
  eexists. exists w'. repeat split; [assumption|].
  apply exists_absent; [assumption| |congruence].
  eapply store_opens_kept; eassumption.
Qed.

Lemma update_requires_existence_witness :
  "unknown" <> "" /\ store_opens fresh_world = true /\
  schema fresh_world !! "unknown" = None /\
  exists e w',
    FragmentationUpdate "unknown" 1 fresh_world = (Some e, w') /\
    errors_Is e ErrShardNotFound = true /\
    schema w' = schema fresh_world /\
    fst (FragmentationExists "unknown" w') = (false, None).
Proof.
  split; [discriminate|]. split; [vm_compute; reflexivity|]. split; [reflexivity|].
  apply (update_requires_existence "unknown" 1 fresh_world).
  - discriminate.
  - vm_compute. reflexivity.
  - reflexivity.
Defined.

(** C5. For every key of the directory (a non-empty string):
    [FragmentationRemove(key)] on a key with no assignment, in a world
    where the store opens, fails with [ErrShardNotFound]; and without
    storage faults, for every shard, after [Add(shard, key)] a
    [Remove(key)] succeeds, after which [Exists(key)] is false and
    [Get(key)] fails with the not-found error. *)
Theorem remove_requires_existence (key : string) (shard : Z) (w : World) :
  key <> "" ->
  (store_opens w = true -> schema w !! key = None ->
   exists e, fst (FragmentationRemove key w) = Some e
             /\ errors_Is e ErrShardNotFound = true) /\
  (healthy w ->
   exists w1 w2,
     FragmentationAdd shard [key] w = (None, w1) /\
     FragmentationRemove key w1 = (None, w2) /\
     fst (FragmentationExists key w2) = (false, None) /\
     exists e, fst (FragmentationGet key w2) = (-1, Some e)
               /\ errors_Is e ErrShardNotFound = true).
Proof.
  intros Hkey. split.
  - intros Hopen Hlook. apply remove_absent; assumption.
  - intros Hw.
    destruct (add_healthy shard [key] w ltac:(discriminate) Hw) as (w1 & Hadd & Hw1 & Hm1).
    cbn [put_keys fold_left] in Hm1. rewrite eqb_empty_false in Hm1 by assumption.
    destruct (remove_present w1 key (fmt.Sprintf_d shard) Hkey Hw1) as (w2 & Hrem & Hw2 & Hm2).
    { rewrite Hm1. apply lookup_insert_eq. }
    assert (schema w2 !! key = None) as Hgone by (rewrite Hm2; apply lookup_delete_eq).
    exists w1, w2. repeat split; try assumption.
    + apply exists_absent; [assumption|apply healthy_opens; assumption|assumption].
    + apply get_absent; [assumption|apply healthy_opens; assumption|assumption].
Qed.

Lemma remove_requires_existence_witness :
  "test_remove_key" <> "" /\
  store_opens fresh_world = true /\ schema fresh_world !! "test_remove_key" = None /\
  healthy fresh_world /\
  (exists e, fst (FragmentationRemove "test_remove_key" fresh_world) = Some e
             /\ errors_Is e ErrShardNotFound = true) /\
  exists w1 w2,
    FragmentationAdd 1 ["test_remove_key"] fresh_world = (None, w1) /\
    FragmentationRemove "test_remove_key" w1 = (None, w2) /\
    fst (FragmentationExists "test_remove_key" w2) = (false, None) /\
    exists e, fst (FragmentationGet "test_remove_key" w2) = (-1, Some e)
              /\ errors_Is e ErrShardNotFound = true.
Proof.
  split; [discriminate|]. split; [vm_compute; reflexivity|]. split; [reflexivity|].
  split; [exact healthy_fresh_world|].
  destruct (remove_requires_existence "test_remove_key" 1 fresh_world) as [Habsent Hcycle].
  - discriminate.
  - split; [apply Habsent; [vm_compute; reflexivity|reflexivity]|].
    apply Hcycle. repeat split.
Defined.

(** ** Add overwrites *)

(** C6. Without storage faults, for every non-empty key, [Add(s1, key)]
    then [Add(s2, key)] both succeed and a following [Get(key)] returns
    [s2]; in particular [Add(5, "k")], [Add(9, "k")], [Get("k") = 9]. *)
Theorem add_is_upsert (key : string) (s1 s2 : Z) (w : World) :
  key <> "" -> in_int64 s2 -> healthy w ->
  exists w1 w2,
    FragmentationAdd s1 [key] w = (None, w1) /\
    FragmentationAdd s2 [key] w1 = (None, w2) /\
    fst (FragmentationGet key w2) = (s2, None).
Proof.
  intros Hkey Hs2 Hw.
  destruct (add_healthy s1 [key] w ltac:(discriminate) Hw) as (w1 & Hadd1 & Hw1 & Hm1).
  destruct (add_healthy s2 [key] w1 ltac:(discriminate) Hw1) as (w2 & Hadd2 & Hw2 & Hm2).
  exists w1, w2. repeat split; try assumption.
  pose proof Hw2 as (_ & _ & Hget & _).
  apply get_present; try (assumption || apply Hget).
  - apply healthy_opens. assumption.
  - rewrite Hm2. cbn [put_keys fold_left]. rewrite eqb_empty_false by assumption.
    apply lookup_insert_eq.
Qed.

Lemma add_is_upsert_witness :
  "k" <> "" /\ in_int64 9 /\ healthy fresh_world /\
  exists w1 w2,
    FragmentationAdd 5 ["k"] fresh_world = (None, w1) /\
    FragmentationAdd 9 ["k"] w1 = (None, w2) /\
    fst (FragmentationGet "k" w2) = (9, None).
Proof.
  split; [discriminate|]. split; [unfold in_int64, minInt64, maxInt64; lia|].
  split; [exact healthy_fresh_world|].
  apply (add_is_upsert "k" 5 9 fresh_world).
  - discriminate.
  - unfold in_int64, minInt64, maxInt64. lia.
  - repeat split.
Defined.

(** ** Exists *)

(** C7. For every non-empty key: when the store opens and the key is
    absent, [FragmentationExists(key)] returns [(false, nil)]; and whenever
    it returns an error, the store could not be opened and the error is
    [ErrDatabaseOpen]. *)
Theorem exists_absent_is_no_error (key : string) (w : World) :
  key <> "" ->
  (store_opens w = true -> schema w !! key = None ->
   fst (FragmentationExists key w) = (false, None)) /\
  (forall e, snd (fst (FragmentationExists key w)) = Some e ->
             store_opens w = false /\ errors_Is e ErrDatabaseOpen = true).
Proof.
  intros Hkey. split; [apply exists_absent; assumption|].
  intros e He. pose proof (FragmentationExists_refines key w) as H.
  destruct (FragmentationExists key w) as [r w']. destruct H as (-> & _).
  cbn [fst] in He. unfold exists_model, store_opens in *.
  rewrite eqb_empty_false in He by assumption.
  destruct (fst (open_schema w)) as [db|e0].
  - destruct (get_fails (faults w) schema_dir key); [discriminate|].
    destruct (schema w !! key); discriminate.
  - inversion He; subst. split; reflexivity.
Qed.

Lemma exists_absent_is_no_error_witness :
  "non_existing_key" <> "" /\
  fst (FragmentationExists "non_existing_key" fresh_world) = (false, None) /\
  (store_opens locked_world = false /\
   exists e, snd (fst (FragmentationExists "non_existing_key" locked_world)) = Some e
             /\ errors_Is e ErrDatabaseOpen = true).
Proof.
  split; [discriminate|]. split.
  - destruct (exists_absent_is_no_error "non_existing_key" fresh_world) as [Habsent _].
    + discriminate.
    + apply Habsent; [vm_compute|]; reflexivity.
  - destruct (exists_absent_is_no_error "non_existing_key" locked_world) as [_ Herror].
    + discriminate.
    + destruct (Herror (open_error (Errorf (Sentinel ErrDatabaseOpen) None
                                      (Some LevelDBError)))) as [Hlocked His].
      * vm_compute. reflexivity.
      * split; [exact Hlocked|]. eexists. split; [vm_compute; reflexivity|exact His].
Defined.

(** ** Path resolution *)

(** C8 (amended). [buildPath], and [CreateLevelDBDatabase] before it, fail
    with [ErrInvalidPath] on fewer than two components, without any I/O.
    Otherwise the first two components, each trimmed of white space, are
    joined into the directory, which is looked up and created (with its
    parents) only if missing; a failure to create it is returned.  The path
    returned is that directory, or, when there is a third component, the
    directory joined with the trimmed third component, for which nothing is
    looked up or created.  Components after the third are ignored. *)
Theorem buildPath_resolves (params : list string) (w : World) :
  match params with
  | p0 :: p1 :: rest =>
      let dir := path.Join [strings.TrimSpace p0; strings.TrimSpace p1] in
      let full := match rest with
                  | [] => dir
                  | p2 :: _ => path.Join [dir; strings.TrimSpace p2]
                  end in
      let '(r, w') := buildPath params w in
      stores w' = stores w /\
      if bool_decide (dir ∈ dirs w)
      then r = (full, None) /\ trace w' = trace w ++ [EvStat dir] /\ dirs w' = dirs w
      else trace w' = trace w ++ [EvStat dir; EvMkdirAll dir] /\
           if mkdir_fails (faults w) dir
           then r = ("", Some (Errorf OsError (Some dir) None)) /\ dirs w' = dirs w
           else r = (full, None) /\ dir ∈ dirs w' /\
                dirs w' = list_to_set (with_parents dir) ∪ dirs w
  | _ => buildPath params w = (("", Some (Sentinel ErrInvalidPath)), w) /\
         CreateLevelDBDatabase params w = (inr (Sentinel ErrInvalidPath), w)
  end.
Proof.
  destruct params as [|p0 [|p1 rest]]; [split; reflexivity..|].
  cbv zeta. unfold buildPath.
  change ((List.length (p0 :: p1 :: rest) <? 2)%nat) with false. cbv iota.
  unfold bind, ret, os.Stat_IsNotExist, os.MkdirAll, emit, log_Printf, get_world, add_dirs.
  cbn -[path.Join strings.TrimSpace with_parents].
  set (dir := path.Join [strings.TrimSpace p0; strings.TrimSpace p1]).
  destruct (bool_decide (dir ∈ dirs w)); cbn -[path.Join strings.TrimSpace with_parents].
  - destruct rest; repeat split; reflexivity.
  - destruct (mkdir_fails (faults w) dir); cbn -[path.Join strings.TrimSpace with_parents].
    + rewrite <- app_assoc. repeat split; reflexivity.
    + rewrite <- app_assoc.
      assert (dir ∈ (list_to_set (with_parents dir) ∪ dirs w : gset string))
        by (apply elem_of_union_l, elem_of_list_to_set, with_parents_self).
      destruct rest; repeat split; try reflexivity; assumption.
Qed.

(** C8, as stated, fails on a fourth component: it is not collapsed into
    the final segment but dropped. *)
Lemma buildPath_drops_fourth :
  fst (buildPath ["a"; "b"; "c"; "d"] fresh_world) = ("a/b/c", None) /\
  fst (buildPath ["a"; "b"; "c"] fresh_world) = ("a/b/c", None) /\
  Resolve_spec_path ["a"; "b"; "c"; "d"] = "a/b/c/d" /\
  fst (fst (buildPath ["a"; "b"; "c"; "d"] fresh_world))
  <> Resolve_spec_path ["a"; "b"; "c"; "d"].
Proof.
  split; [vm_compute; reflexivity|]. split; [vm_compute; reflexivity|].
  split; [vm_compute; reflexivity|]. vm_compute. discriminate.
Qed.

(** ** Path cleaning *)

(** C9. [CleanPath] is idempotent, [CleanPath(CleanPath(p)) = CleanPath(p)]
    for every string [p], and it drops redundant separators:
    [CleanPath("//a//b//") = CleanPath("a/b")]. *)
Theorem CleanPath_idempotent :
  (forall p : string, CleanPath (CleanPath p) = CleanPath p)
  /\ CleanPath "//a//b//" = CleanPath "a/b".
Proof.
  split; [|reflexivity].
  intros p. rewrite <- (string_of_list_ascii_of_string (CleanPath (CleanPath p))).
  rewrite <- (string_of_list_ascii_of_string (CleanPath p)) at 2.
  f_equal. rewrite (CleanPath_bytes (CleanPath p)), CleanPath_bytes.
  pose proof (Clean_bytes_cleaned _ (Trim_byte_unrooted (list_ascii_of_string p))) as H.
  rewrite (Trim_byte_fixed _ H), (Clean_bytes_fixed _ H). reflexivity.
Qed.

(** ** The invariant of the index *)

(** C10. In every world the directory can be in, every stored value is
    the decimal text of an int64 (under a non-empty key), and
    [FragmentationGet] never fails with [ErrShardConversion]. *)
Theorem stored_shards_are_decimal (w : World) :
  reachable w ->
  dir_inv (schema w) /\
  forall key e, snd (fst (FragmentationGet key w)) = Some e ->
                errors_Is e ErrShardConversion = false.
Proof.
  intros Hreach. pose proof (reachable_inv w Hreach) as Hinv. split; [assumption|].
  intros key e He. pose proof (FragmentationGet_refines key w) as H.
  destruct (FragmentationGet key w) as [r w']. destruct H as (-> & _).
  cbn [fst] in He. unfold get_model in He.
  destruct (String.eqb key ""); [inversion He; reflexivity|].
  destruct (fst (open_schema w)); [|inversion He; reflexivity].
  destruct (get_fails (faults w) schema_dir key); [inversion He; reflexivity|].
  destruct (schema w !! key) as [v|] eqn:Hlook; [|inversion He; reflexivity].
  apply Hinv in Hlook as (_ & z & Hz & ->).
  rewrite ParseInt_Sprintf_d in He by assumption. discriminate.
Qed.

Lemma stored_shards_are_decimal_witness :
  reachable (run_op (OpUpdate "user_42" 7) (run_op (OpAdd 1 ["user_42"]) fresh_world)) /\
  schema (run_op (OpUpdate "user_42" 7) (run_op (OpAdd 1 ["user_42"]) fresh_world))
    !! "user_42" = Some "7" /\
  dir_inv (schema (run_op (OpUpdate "user_42" 7)
                     (run_op (OpAdd 1 ["user_42"]) fresh_world))).
Proof.
  assert (reachable (run_op (OpUpdate "user_42" 7)
                       (run_op (OpAdd 1 ["user_42"]) fresh_world))) as Hreach.
  { apply reach_op; [apply reach_op; [exact reachable_fresh_world|]|];
      cbn; unfold in_int64, minInt64, maxInt64; lia. }
  split; [exact Hreach|]. split; [vm_compute; reflexivity|].
  exact (proj1 (stored_shards_are_decimal _ Hreach)).
Defined.

(** The conversion error is there for an index written to from outside. *)
Lemma conversion_error_outside :
  exists e, fst (FragmentationGet "k" tampered_world) = (-1, Some e)
            /\ errors_Is e ErrShardConversion = true.
Proof. eexists. split; vm_compute; reflexivity. Qed.


(** * Further properties of the directory *)

Lemma update_present w key v newShard :
  key <> "" -> healthy w -> schema w !! key = Some v ->
  exists w', FragmentationUpdate key newShard w = (None, w') /\ healthy w' /\
    schema w' = <[key := fmt.Sprintf_d newShard]> (schema w).
Proof.
  intros Hkey Hw Hlook.
  pose proof (FragmentationUpdate_refines key newShard w) as H.
  destruct (FragmentationUpdate key newShard w) as [r w']. destruct H as (Hr & Hm & Hk).
  unfold update_model, exists_model in Hr, Hm.
  rewrite eqb_empty_false in Hr, Hm by assumption.
  destruct (store_opens_inl _ (healthy_opens _ Hw)) as [db Ho]. rewrite Ho in Hr, Hm.
  pose proof Hw as (_ & _ & Hget & Hput & _).
  rewrite Hget, Hlook, Hput in Hr, Hm. cbn [fst snd] in *. subst r.
  exists w'. split; [reflexivity|]. split; [eapply healthy_kept; eassumption|assumption].
Qed.

(** X1. Without storage faults, [FragmentationUpdate(key, newShard)] on a
    non-empty key that has an assignment succeeds, a following
    [FragmentationGet(key)] returns [newShard], and the index is the one
    [FragmentationAdd(newShard, key)] would have left. *)
Theorem update_get_round_trip (key : string) (newShard : Z) (w : World) :
  key <> "" -> in_int64 newShard -> healthy w -> is_Some (schema w !! key) ->
  exists w',
    FragmentationUpdate key newShard w = (None, w') /\
    fst (FragmentationGet key w') = (newShard, None) /\
    schema w' = schema (snd (FragmentationAdd newShard [key] w)).
Proof.
  intros Hkey Hs Hw [v Hlook].
  destruct (update_present w key v newShard Hkey Hw Hlook) as (w' & Hup & Hw' & Hm).
  exists w'. split; [assumption|]. split.
  - pose proof Hw' as (_ & _ & Hget & _).
    apply get_present; try (assumption || apply Hget).
    + apply healthy_opens. assumption.
    + rewrite Hm. apply lookup_insert_eq.
  - destruct (add_healthy newShard [key] w ltac:(discriminate) Hw) as (w1 & Hadd & _ & Hm1).
    rewrite Hadd. cbn [snd]. rewrite Hm, Hm1. cbn [put_keys fold_left].
    rewrite eqb_empty_false by assumption. reflexivity.
Qed.

Lemma update_get_round_trip_witness :
  exists w',
    FragmentationUpdate "user_42" 7 (snd (FragmentationAdd 1 ["user_42"] fresh_world))
    = (None, w') /\
    fst (FragmentationGet "user_42" w') = (7, None) /\
    schema w'
    = schema (snd (FragmentationAdd 7 ["user_42"]
                     (snd (FragmentationAdd 1 ["user_42"] fresh_world)))).
Proof.
  apply (update_get_round_trip "user_42" 7).
  - discriminate.
  - unfold in_int64, minInt64, maxInt64. lia.
  - repeat split.
  - exists "1". vm_compute. reflexivity.
Defined.




Lemma add_keys_model_fail f sb pre k post : forall m,
  (forall x, In x pre -> put_fails f schema_dir x = false) ->
  k <> "" -> put_fails f schema_dir k = true ->
  add_keys_model f sb (pre ++ k :: post) m
  = (Some (Errorf (Sentinel ErrFragmentationWrite) (Some k) (Some LevelDBError)),
     put_keys sb pre m).
Proof.
  induction pre as [|x pre IH]; intros m Hpre Hk Hfail; cbn [app add_keys_model].
  - rewrite eqb_empty_false by assumption. rewrite Hfail. reflexivity.
  - rewrite put_keys_cons.
    assert (forall y, In y pre -> put_fails f schema_dir y = false) as Hpre'
      by (intros y Hy; apply Hpre; right; exact Hy).
    destruct (String.eqb x ""); [apply IH; assumption|].
    rewrite (Hpre x) by (left; reflexivity). apply IH; assumption.
Qed.

(** X3. [FragmentationAdd] fails fast and does not roll back: when the
    store opens and the write of a non-empty key of the batch fails after
    the writes before it went through, it returns [ErrFragmentationWrite]
    naming that key, the non-empty keys before it are assigned, and no key
    that is not before it is touched (the failing key and the keys after it
    are not written). *)
Theorem add_fails_fast (shard : Z) (pre post : list string) (k : string) (w : World) :
  store_opens w = true ->
  (forall x, In x pre -> put_fails (faults w) schema_dir x = false) ->
  k <> "" -> put_fails (faults w) schema_dir k = true ->
  exists w',
    FragmentationAdd shard (pre ++ k :: post) w
    = (Some (Errorf (Sentinel ErrFragmentationWrite) (Some k) (Some LevelDBError)), w') /\
    (forall x, In x pre -> x <> "" -> schema w' !! x = Some (fmt.Sprintf_d shard)) /\
    (forall y, ~ In y pre -> schema w' !! y = schema w !! y).
Proof.
  intros Hopen Hpre Hk Hfail.
  pose proof (FragmentationAdd_refines shard (pre ++ k :: post) w) as H.
  destruct (FragmentationAdd shard (pre ++ k :: post) w) as [r w'].
  destruct H as (Hr & Hm & _). unfold add_model in Hr, Hm.
  destruct (pre ++ k :: post) as [|key0 keys0] eqn:E; [destruct pre; discriminate|].
  rewrite <- E in Hr, Hm. clear E.
  destruct (store_opens_inl _ Hopen) as [db Ho]. rewrite Ho in Hr, Hm.
  rewrite add_keys_model_fail in Hr, Hm by assumption. cbn [fst snd] in *. subst r.
  exists w'. split; [reflexivity|]. rewrite Hm. split.
  - intros x Hx Hne. apply put_keys_written; assumption.
  - intros y Hy. apply put_keys_other. assumption.
Qed.

Lemma add_fails_fast_witness :
  exists w',
    FragmentationAdd 4 (["a"; "b"] ++ "bad" :: ["c"]) bad_key_world
    = (Some (Errorf (Sentinel ErrFragmentationWrite) (Some "bad") (Some LevelDBError)), w') /\
    (forall x, In x ["a"; "b"] -> x <> "" -> schema w' !! x = Some (fmt.Sprintf_d 4)) /\
    (forall y, ~ In y ["a"; "b"] -> schema w' !! y = schema bad_key_world !! y).
Proof.
  apply (add_fails_fast 4 ["a"; "b"] ["c"] "bad" bad_key_world).
  - vm_compute. reflexivity.
  - intros x [<-|[<-|[]]]; reflexivity.
  - discriminate.
  - reflexivity.
Defined.

(** X4. Without storage faults, adding a batch is adding its parts one call
    after the other: all three calls succeed and
    [Add(shard, keys1 ++ keys2)] leaves the index that [Add(shard, keys1)]
    followed by [Add(shard, keys2)] leaves. *)
Theorem add_batch_is_sequence (shard : Z) (keys1 keys2 : list string) (w : World) :
  keys1 <> [] -> keys2 <> [] -> healthy w ->
  exists w12 w1 w2,
    FragmentationAdd shard (keys1 ++ keys2) w = (None, w12) /\
    FragmentationAdd shard keys1 w = (None, w1) /\
    FragmentationAdd shard keys2 w1 = (None, w2) /\
    schema w12 = schema w2.
Proof.
  intros H1 H2 Hw.
  destruct (add_healthy shard (keys1 ++ keys2) w) as (w12 & Hadd12 & _ & Hm12);
    [destruct keys1; [congruence|discriminate]|assumption|].
  destruct (add_healthy shard keys1 w H1 Hw) as (w1 & Hadd1 & Hw1 & Hm1).
  destruct (add_healthy shard keys2 w1 H2 Hw1) as (w2 & Hadd2 & _ & Hm2).
  exists w12, w1, w2. repeat split; try assumption.
  rewrite Hm12, Hm2, Hm1. apply put_keys_app.
Qed.

Lemma add_batch_is_sequence_witness :
  exists w12 w1 w2,
    FragmentationAdd 2 (["user_002"] ++ ["user_003"; "user_004"]) fresh_world = (None, w12) /\
    FragmentationAdd 2 ["user_002"] fresh_world = (None, w1) /\
    FragmentationAdd 2 ["user_003"; "user_004"] w1 = (None, w2) /\
    schema w12 = schema w2.
Proof.
  apply (add_batch_is_sequence 2 ["user_002"] ["user_003"; "user_004"] fresh_world).
  - discriminate.
  - discriminate.
  - repeat split.
Defined.

Lemma exists_present w key v :
  key <> "" -> store_opens w = true -> get_fails (faults w) schema_dir key = false ->
  schema w !! key = Some v -> fst (FragmentationExists key w) = (true, None).
Proof.
  intros Hkey Hopen Hget Hlook.
  pose proof (FragmentationExists_refines key w) as H.
  destruct (FragmentationExists key w) as [r w']. destruct H as (-> & _). cbn [fst].
  unfold exists_model. rewrite eqb_empty_false by assumption.
  destruct (store_opens_inl _ Hopen) as [db ->]. rewrite Hget, Hlook. reflexivity.
Qed.

(** X5. [FragmentationExists] and [FragmentationGet] agree: without storage
    faults, in a world the directory can be in, a non-empty key either has
    an assignment, and then Exists is true and Get returns its shard, an
    int64 whose decimal text is the stored value; or it has none, and then
    Exists is false and Get fails with [ErrShardNotFound], returning -1. *)
Theorem exists_agrees_with_get (key : string) (w : World) :
  key <> "" -> healthy w -> reachable w ->
  match schema w !! key with
  | Some v =>
      fst (FragmentationExists key w) = (true, None) /\
      exists n, in_int64 n /\ v = fmt.Sprintf_d n /\
                fst (FragmentationGet key w) = (n, None)
  | None =>
      fst (FragmentationExists key w) = (false, None) /\
      exists e, fst (FragmentationGet key w) = (-1, Some e) /\
                errors_Is e ErrShardNotFound = true
  end.
Proof.
  intros Hkey Hw Hreach. pose proof (healthy_opens _ Hw) as Hopen.
  pose proof Hw as (_ & _ & Hget & _).
  destruct (schema w !! key) as [v|] eqn:Hlook.
  - split; [eapply exists_present; eauto|].
    destruct (reachable_inv w Hreach key v Hlook) as (_ & n & Hn & ->).
    exists n. split; [assumption|]. split; [reflexivity|]. apply get_present; auto.
  - split; [apply exists_absent; assumption|apply get_absent; assumption].
Qed.

Lemma exists_agrees_with_get_witness :
  fst (FragmentationExists "k" (run_op (OpAdd (-5) ["k"]) fresh_world)) = (true, None) /\
  exists n, in_int64 n /\ "-5" = fmt.Sprintf_d n /\
            fst (FragmentationGet "k" (run_op (OpAdd (-5) ["k"]) fresh_world)) = (n, None).
Proof.
  assert (healthy (run_op (OpAdd (-5) ["k"]) fresh_world)) as Hw by (repeat split).
  assert (reachable (run_op (OpAdd (-5) ["k"]) fresh_world)) as Hreach.
  { apply reach_op; [exact reachable_fresh_world|].
    cbn. unfold in_int64, minInt64, maxInt64. lia. }
  pose proof (exists_agrees_with_get "k" _ ltac:(discriminate) Hw Hreach) as H.
  replace (schema (run_op (OpAdd (-5) ["k"]) fresh_world) !! "k") with (Some "-5") in H
    by (vm_compute; reflexivity).
  exact H.
Defined.




Lemma to_int64_range z : in_int64 (to_int64 z).
Proof. unfold in_int64. word_arith. Qed.

Lemma ParseInt_range s n : strconv.ParseInt s = (n, None) -> in_int64 n.
Proof.
  unfold strconv.ParseInt. destruct s as [|c0 s1]; [discriminate|].
  destruct (if Ascii.eqb c0 "+" then (false, s1)
            else if Ascii.eqb c0 "-" then (true, s1) else (false, String c0 s1))
    as [neg s'].
  destruct (strconv.ParseUint s') as [un [[]|]];
    try discriminate;
    destruct (negb neg && (2 ^ 63 <=? un)); try discriminate;
    destruct (neg && (2 ^ 63 <? un)); try discriminate;
    intros H; inversion H; destruct neg; apply to_int64_range.
Qed.

(** X7. What [FragmentationGet] and [FragmentationExists] return beside
    their error: with every error Get returns the shard -1 and Exists
    returns false; without an error, the shard Get returns is an int64. *)
Theorem results_beside_errors (key : string) (w : World) :
  (forall e, snd (fst (FragmentationGet key w)) = Some e ->
             fst (fst (FragmentationGet key w)) = -1) /\
  (forall e, snd (fst (FragmentationExists key w)) = Some e ->
             fst (fst (FragmentationExists key w)) = false) /\
  (forall n, fst (FragmentationGet key w) = (n, None) -> in_int64 n).
Proof.
  pose proof (FragmentationGet_refines key w) as Hg.
  destruct (FragmentationGet key w) as [rg wg]. destruct Hg as (-> & _).
  pose proof (FragmentationExists_refines key w) as Hx.
  destruct (FragmentationExists key w) as [rx wx]. destruct Hx as (-> & _).
  cbn [fst]. unfold get_model, exists_model.
  destruct (String.eqb key ""); [repeat split; intros; (reflexivity || discriminate)|].
  destruct (fst (open_schema w)); [|repeat split; intros; (reflexivity || discriminate)].
  destruct (get_fails (faults w) schema_dir key);
    [repeat split; intros; (reflexivity || discriminate)|].
  destruct (schema w !! key) as [v|];
    [|repeat split; intros; (reflexivity || discriminate)].
  destruct (strconv.ParseInt v) as [n [ne|]] eqn:Hparse;
    (split; [intros; (reflexivity || discriminate)|]);
    (split; [intros; (reflexivity || discriminate)|]);
    intros n' Hn'; inversion Hn'; subst. eapply ParseInt_range; eassumption.
Qed.

Lemma results_beside_errors_witness :
  fst (fst (FragmentationGet "k" tampered_world)) = -1 /\
  fst (fst (FragmentationExists "" fresh_world)) = false /\
  in_int64 7.
Proof.
  destruct (results_beside_errors "k" tampered_world) as (Hget & _ & _).
  destruct (results_beside_errors "" fresh_world) as (_ & Hex & _).
  destruct (results_beside_errors "k" (run_op (OpAdd 7 ["k"]) fresh_world)) as (_ & _ & Hn).
  split; [eapply Hget; vm_compute; reflexivity|].
  split; [eapply Hex; reflexivity|].
  apply Hn. vm_compute. reflexivity.
Defined.

(** ** Handles and frames *)




















(** * Further properties of the connection helpers *)

Lemma buildPath_unfold p0 p1 rest w :
  buildPath (p0 :: p1 :: rest) w =
  let dir := path.Join [strings.TrimSpace p0; strings.TrimSpace p1] in
  let full := match rest with
              | [] => dir
              | p2 :: _ => path.Join [dir; strings.TrimSpace p2]
              end in
  let w1 := record_event (EvStat dir) w in
  if bool_decide (dir ∈ dirs w) then ((full, None), w1)
  else
    let w2 := record_event (EvMkdirAll dir) w1 in
    if mkdir_fails (faults w) dir
    then (("", Some (Errorf OsError (Some dir) None)), w2)
    else ((full, None), record_log (LogCreatedDir dir) (with_dirs (with_parents dir) w2)).
Proof.
  cbv zeta. unfold buildPath.
  change ((List.length (p0 :: p1 :: rest) <? 2)%nat) with false. cbv iota.
  unfold bind, ret, os.Stat_IsNotExist, os.MkdirAll, emit, log_Printf, get_world, add_dirs.
  cbn -[path.Join strings.TrimSpace with_parents].
  set (dir := path.Join [strings.TrimSpace p0; strings.TrimSpace p1]).
  destruct (bool_decide (dir ∈ dirs w)); cbn -[path.Join strings.TrimSpace with_parents].
  - destruct rest; reflexivity.
  - destruct (mkdir_fails (faults w) dir); cbn -[path.Join strings.TrimSpace with_parents];
      [reflexivity|]. destruct rest; reflexivity.
Qed.

Lemma buildPath_short params w :
  (List.length params < 2)%nat ->
  buildPath params w = (("", Some (Sentinel ErrInvalidPath)), w).
Proof.
  intros H. destruct params as [|p0 [|p1 rest]]; [reflexivity..|]. cbn in H. lia.
Qed.

(** X10. Creating the directory is idempotent: after a [buildPath] that
    succeeded, the same call returns the same path and only looks the
    directory up again; it creates nothing, logs nothing and changes no
    store. *)
Theorem buildPath_again (params : list string) (w w1 : World) (p : string) :
  buildPath params w = ((p, None), w1) ->
  exists dir, buildPath params w1 = ((p, None), record_event (EvStat dir) w1).
Proof.
  intros H. destruct params as [|p0 [|p1 rest]]; [discriminate..|].
  rewrite buildPath_unfold in H |- *. cbv zeta in *.
  set (dir := path.Join [strings.TrimSpace p0; strings.TrimSpace p1]) in *.
  exists dir.
  assert (dir ∈ dirs w1 /\ p = match rest with
                               | [] => dir
                               | p2 :: _ => path.Join [dir; strings.TrimSpace p2]
                               end) as [Hin ->].
  { destruct (bool_decide_reflect (dir ∈ dirs w)) as [Hd|Hd].
    - inversion H; subst. split; [exact Hd|reflexivity].
    - destruct (mkdir_fails (faults w) dir); inversion H; subst.
      split; [|reflexivity]. cbn -[with_parents].
      apply elem_of_union_l, elem_of_list_to_set, with_parents_self. }
  rewrite bool_decide_eq_true_2 by assumption. reflexivity.
Qed.

Lemma buildPath_again_witness :
  exists dir,
    buildPath ["testdb"; "shard1"; "data.db"]
      (snd (buildPath ["testdb"; "shard1"; "data.db"] fresh_world))
    = (("testdb/shard1/data.db", None),
       record_event (EvStat dir) (snd (buildPath ["testdb"; "shard1"; "data.db"] fresh_world))).
Proof.
  apply (buildPath_again _ fresh_world). vm_compute. reflexivity.
Defined.

(** X11. What [CreateLevelDBDatabase] returns on two or more components.
    It writes to no store.  It returns a store exactly when the directory
    of the first two components exists or can be created and the engine
    opens the full path; the store is the one at the path [buildPath]
    resolves, opened as the last call, with its directory in place.
    Otherwise the error is [ErrDirectoryCreate] when the missing directory
    cannot be created, in which case nothing is opened, and
    [ErrDatabaseOpen] when the engine fails. *)
Theorem CreateLevelDBDatabase_result (p0 p1 : string) (rest : list string) (w : World) :
  let dir := path.Join [strings.TrimSpace p0; strings.TrimSpace p1] in
  let full := match rest with
              | [] => dir
              | p2 :: _ => path.Join [dir; strings.TrimSpace p2]
              end in
  let '(r, w') := CreateLevelDBDatabase (p0 :: p1 :: rest) w in
  stores w' = stores w /\
  match r with
  | inl db =>
      leveldb.db_path db = full /\
      (dir ∈ dirs w \/ mkdir_fails (faults w) dir = false) /\
      open_fails (faults w) full = false /\
      dir ∈ dirs w' /\ full ∈ dirs w' /\
      List.last (trace w') (EvStat "") = EvOpenFile full
  | inr e =>
      (errors_Is e ErrDirectoryCreate = true /\ errors_Is e ErrDatabaseOpen = false /\
       ~ dir ∈ dirs w /\ mkdir_fails (faults w) dir = true /\
       trace w' = trace w ++ [EvStat dir; EvMkdirAll dir])
      \/
      (errors_Is e ErrDatabaseOpen = true /\ errors_Is e ErrDirectoryCreate = false /\
       open_fails (faults w) full = true /\
       List.last (trace w') (EvStat "") = EvOpenFile full)
  end.
Proof.
  cbv zeta. unfold CreateLevelDBDatabase.
  change ((List.length (p0 :: p1 :: rest) <? 2)%nat) with false. cbv iota.
  unfold bind at 1. rewrite buildPath_unfold. cbv zeta.
  set (dir := path.Join [strings.TrimSpace p0; strings.TrimSpace p1]).
  set (full := match rest with
               | [] => dir
               | p2 :: _ => path.Join [dir; strings.TrimSpace p2]
               end).
  assert (forall ds : gset string, full ∈ list_to_set (with_parents full) ∪ ds) as Hfull
    by (intros ds; apply elem_of_union_l, elem_of_list_to_set, with_parents_self).
  assert (forall ds : gset string, dir ∈ list_to_set (with_parents dir) ∪ ds) as Hdir
    by (intros ds; apply elem_of_union_l, elem_of_list_to_set, with_parents_self).
  unfold bind, ret, log_Printf, leveldb.OpenFile, emit, get_world, add_dirs.
  destruct (bool_decide_reflect (dir ∈ dirs w)) as [Hd|Hd];
    [|destruct (mkdir_fails (faults w) dir) eqn:Hm];
    cbn -[with_parents dir full];
    try (destruct (open_fails (faults w) full) eqn:Ho);
    cbn -[with_parents dir full];
    (split; [reflexivity|]).
  - right. repeat split. apply last_last.
  - split; [reflexivity|]. split; [left; assumption|]. split; [reflexivity|].
    split; [apply elem_of_union_r; assumption|]. split; [apply Hfull|apply last_last].
  - left. repeat split; try assumption. rewrite <- app_assoc. reflexivity.
  - left. repeat split; try assumption. rewrite <- app_assoc. reflexivity.
  - right. repeat split. apply last_last.
  - split; [reflexivity|]. split; [right; reflexivity|]. split; [reflexivity|].
    split; [apply elem_of_union_r, Hdir|]. split; [apply Hfull|apply last_last].
Qed.

(** * Further properties of [CleanPath] *)

Lemma no_double_slash_app c J :
  slash_free c -> c <> [] -> unrooted J -> no_double_slash J = true ->
  no_double_slash (c ++ slash :: J) = true.
Proof.
  intros Hc Hne HJ Hnds. induction Hc as [|x c Hx Hc IH]; [congruence|].
  destruct c as [|x' c].
  - cbn [app no_double_slash]. rewrite Hx. cbn [andb negb].
    destruct J as [|y J]; [reflexivity|].
    unfold unrooted in HJ. cbn [hd] in HJ. rewrite HJ, andb_false_r. exact Hnds.
  - change ((x :: x' :: c) ++ slash :: J) with (x :: (x' :: c) ++ slash :: J).
    change (no_double_slash (x :: (x' :: c) ++ slash :: J))
      with (negb (is_slash x && is_slash x')
            && no_double_slash ((x' :: c) ++ slash :: J)).
    rewrite Hx. cbn [andb negb]. apply IH. discriminate.
Qed.

Lemma no_double_slash_free c : slash_free c -> no_double_slash c = true.
Proof.
  induction 1 as [|x c Hx Hc IH]; [reflexivity|].
  destruct c as [|x' c]; [reflexivity|].
  change (no_double_slash (x :: x' :: c))
    with (negb (is_slash x && is_slash x') && no_double_slash (x' :: c)).
  rewrite Hx. exact IH.
Qed.

Lemma join_slash_no_double cs :
  Forall is_elem cs -> no_double_slash (join_slash cs) = true.
Proof.
  induction 1 as [|c cs [Hc Hne] Hcs IH]; [reflexivity|].
  cbn [join_slash]. destruct cs as [|c' cs]; [apply no_double_slash_free; assumption|].
  apply no_double_slash_app; try assumption. apply join_slash_unrooted. assumption.
Qed.

(** X12. The shape of a cleaned path: for every string [p], [CleanPath(p)]
    is not empty, neither starts nor ends with a slash, and has no two
    slashes in a row. *)
Theorem CleanPath_shape (p : string) :
  let r := list_ascii_of_string (CleanPath p) in
  r <> [] /\ is_slash (hd dot r) = false /\ is_slash (List.last r dot) = false /\
  no_double_slash r = true.
Proof.
  cbv zeta. rewrite CleanPath_bytes.
  destruct (Clean_bytes_cleaned _ (Trim_byte_unrooted (list_ascii_of_string p)))
    as [->|(st & Hst & Hne & ->)].
  - repeat split. discriminate.
  - pose proof (elems_are_elems st Hst) as Hel.
    split; [assumption|]. split; [apply join_slash_unrooted; assumption|].
    split; [apply join_slash_last; assumption|apply join_slash_no_double; assumption].
Qed.

Lemma trimLeftByte_snoc l c :
  strings.trimLeftByte (l ++ [c]) c
  = match strings.trimLeftByte l c with
    | [] => []
    | t => t ++ [c]
    end.
Proof.
  induction l as [|x l IH]; cbn [app strings.trimLeftByte].
  - rewrite Ascii.eqb_refl. reflexivity.
  - destruct (Ascii.eqb x c); [exact IH|reflexivity].
Qed.

Lemma Trim_byte_leading s : strings.Trim_byte (slash :: s) slash = strings.Trim_byte s slash.
Proof.
  unfold strings.Trim_byte, strings.trimRightByte. cbn [rev].
  rewrite trimLeftByte_snoc.
  destruct s as [|x s]; [reflexivity|].
  destruct (strings.trimLeftByte (rev (x :: s)) slash) as [|y t]; [reflexivity|].
  rewrite rev_app_distr. cbn [rev app strings.trimLeftByte].
  rewrite Ascii.eqb_refl. reflexivity.
Qed.

Lemma Trim_byte_trailing s : strings.Trim_byte (s ++ [slash]) slash = strings.Trim_byte s slash.
Proof.
  unfold strings.Trim_byte, strings.trimRightByte.
  rewrite rev_app_distr. cbn [rev app strings.trimLeftByte]. rewrite Ascii.eqb_refl.
  destruct s as [|x s]; reflexivity.
Qed.

Lemma list_ascii_of_string_append s1 s2 :
  list_ascii_of_string (String.append s1 s2)
  = list_ascii_of_string s1 ++ list_ascii_of_string s2.
Proof.
  induction s1 as [|c s1 IH]; [reflexivity|].
  change (String.append (String c s1) s2) with (String c (String.append s1 s2)).
  cbn [list_ascii_of_string app]. f_equal. exact IH.
Qed.

Lemma CleanPath_ext p q :
  strings.Trim_byte (list_ascii_of_string p) slash
  = strings.Trim_byte (list_ascii_of_string q) slash ->
  CleanPath p = CleanPath q.
Proof.
  intros H. unfold CleanPath, path.Clean, strings.Trim.
  do 4 f_equal. exact H.
Qed.

(** X13. Slashes at either end do not matter to [CleanPath]: for every
    string [p], [CleanPath("/" + p)] and [CleanPath(p + "/")] are
    [CleanPath(p)]. *)
Theorem CleanPath_ignores_outer_slashes (p : string) :
  CleanPath (String "/" p) = CleanPath p /\
  CleanPath (String.append p "/") = CleanPath p.
Proof.
  split; apply CleanPath_ext.
  - apply Trim_byte_leading.
  - rewrite list_ascii_of_string_append. apply Trim_byte_trailing.
Qed.

